(** * Placeholder and expression construction of the domino DynamoDB DSL

    A shallow embedding of the expression engine of [expression.go]
    (conditions, AND/OR groups, negation, update clauses) and of the
    request builders of [domino.go] that merge the rendered placeholder
    maps into one request ([Query], [SetFilterExpression],
    [SetUpdateExpression]). *)

From Stdlib Require Import Ascii String Decimal DecimalString DecimalN.
From stdpp Require Import base gmap strings list fin_maps.

Open Scope string_scope.

#[local] Set Warnings "-register-all".

(** ** Go values and their [%v] formatting *)

(** The dynamic values ([interface{}]) that the DSL stores as arguments;
    [VList] is a Go [[]interface{}]. *)
Inductive Value :=
| VInt (z : Z)
| VStr (s : string)
| VBool (b : bool)
| VList (l : list Value).

(** A Go [uint] is a 64-bit unsigned integer. *)
Definition uint_modulus : N := 2 ^ 64.

(** [counter++] on a [uint]. *)
Definition uint_incr (c : N) : N := ((c + 1) mod uint_modulus)%N.

(** [fmt.Sprintf("%v", n)] of an unsigned integer: its decimal digits. *)
Definition fmt_uint (n : N) : string := NilEmpty.string_of_uint (N.to_uint n).

(** [fmt.Sprintf("%v", z)] of a signed integer. *)
Definition fmt_int (z : Z) : string :=
  match z with
  | Zneg p => "-" ++ fmt_uint (Npos p)
  | _ => fmt_uint (Z.to_N z)
  end.

Fixpoint join (sep : string) (l : list string) : string :=
  match l with
  | [] => ""
  | [x] => x
  | x :: xs => x ++ sep ++ join sep xs
  end.

(** [fmt.Sprintf("%v", a)]; a slice prints as [[a b c]]. *)
Fixpoint fmt_value (a : Value) : string :=
  match a with
  | VInt z => fmt_int z
  | VStr s => s
  | VBool b => if b then "true" else "false"
  | VList l => "[" ++ join " " (map fmt_value l) ++ "]"
  end.

(** [fmt.Sprintf(format, args...)]. The directives [%v] (the argument's
    default format, [%!v(MISSING)] when the arguments are used up), [%%]
    and a final lone [%] ([%!(NOVERB)]) are modelled; every other byte of
    the format is copied. What [fmt] does from any other directive on
    (flags, width, precision, argument indexes, other verbs) and the
    [%!(EXTRA type=value, ...)] suffix written for unused arguments are
    given by a [GoFmt]: [directive rest args] is the output from the
    directive on, [rest] being the format after its [%], and
    [extra args] the suffix for the unused [args]. Statements quantify
    over every [GoFmt], so they hold for the behaviour of Go's [fmt]. *)
Record GoFmt := mkGoFmt {
  directive : string -> list Value -> string;
  extra : list Value -> string
}.

Definition extra_suffix (F : GoFmt) (args : list Value) : string :=
  match args with
  | [] => ""
  | _ => extra F args
  end.

Fixpoint sprintf (F : GoFmt) (format : string) (args : list Value) : string :=
  match format with
  | EmptyString => extra_suffix F args
  | String ch rest =>
      if Ascii.eqb ch "%" then
        match rest with
        | EmptyString => "%!(NOVERB)" ++ extra_suffix F args
        | String verb rest' =>
            if Ascii.eqb verb "v" then
              match args with
              | a :: args' => fmt_value a ++ sprintf F rest' args'
              | [] => "%!v(MISSING)" ++ sprintf F rest' []
              end
            else if Ascii.eqb verb "%" then "%" ++ sprintf F rest' args
            else directive F rest args
        end
      else String ch (sprintf F rest args)
  end.


(** ** [generatePlaceholder] *)

(** Membership in the character class [[a-zA-Z_0-9]]. *)
Definition is_word_char (ch : ascii) : bool :=
  let n := nat_of_ascii ch in
  (Nat.leb 97 n && Nat.leb n 122) || (Nat.leb 65 n && Nat.leb n 90) ||
  Nat.eqb n 95 || (Nat.leb 48 n && Nat.leb n 57).

(** [nonalpha.ReplaceAllString(r, "_")] with [nonalpha = [^a-zA-Z_0-9]]:
    every character outside the class becomes ["_"]. *)
Fixpoint sanitize (r : string) : string :=
  match r with
  | EmptyString => EmptyString
  | String ch rest =>
      String (if is_word_char ch then ch else "_"%char) (sanitize rest)
  end.

(** [generatePlaceholder(a, counter)]:
    [":" + nonalpha.ReplaceAllString(fmt.Sprintf("%v_%v", a, counter), "_")]. *)
Definition generatePlaceholder (a : Value) (counter : N) : string :=
  ":" ++ sanitize (fmt_value a ++ "_" ++ fmt_uint counter).

(** [generateNamePlaceholder]: the same with a ["#"] prefix. *)
Definition generateNamePlaceholder (a : Value) (counter : N) : string :=
  "#" ++ sanitize (fmt_value a ++ "_" ++ fmt_uint counter).

(** ** Expressions ([expression.go], the [construct(counter, topLevel)]
    variant returning a name map and a value map) *)

(** Result of [construct]: the expression string, the
    [ExpressionAttributeNames] map ([map[string]*string], the pointer
    read as its string), the [ExpressionAttributeValues] map and the
    advanced counter. A nil Go map is the empty map: the code only reads
    and ranges over such maps, and writes into one only when it is
    non-nil. *)
Definition ConstructResult : Type :=
  (string * gmap string string * gmap string Value * N)%type.

Definition res_expr (r : ConstructResult) : string := r.1.1.1.
Definition res_names (r : ConstructResult) : gmap string string := r.1.1.2.
Definition res_values (r : ConstructResult) : gmap string Value := r.1.2.
Definition res_counter (r : ConstructResult) : N := r.2.

(** [type Condition struct { exprF func([]string) string; args []interface{} }] *)
Record Condition := mkCondition {
  exprF : list string -> string;
  args : list Value
}.

(** The implementations of the [Expression] interface: [Condition] (and
    [KeyCondition], which embeds a [Condition] and so uses its
    [construct]), [ExpressionGroup] and [negation]. *)
Inductive Expression :=
| ECondition (c : Condition)
| EGroup (expressions : list Expression) (op : string)
| ENegation (expression : Expression).

(** The [for i, b := range c.args] loop of [Condition.construct]: the
    placeholder slice [a], the value map [m] and the counter. *)
Fixpoint condition_loop (args : list Value) (counter : N)
    (a : list string) (m : gmap string Value) : list string * gmap string Value * N :=
  match args with
  | [] => (a, m, counter)
  | b :: bs =>
      let ph := generatePlaceholder b counter in
      condition_loop bs (uint_incr counter) (a ++ [ph]) (<[ph := b]> m)
  end.

(** [func (c Condition) construct(counter uint, topLevel bool)]; the
    name map is [nil]. *)
Definition Condition_construct (c : Condition) (counter : N) (topLevel : bool)
    : ConstructResult :=
  let '(a, m, counter') := condition_loop (args c) counter [] ∅ in
  (exprF c a, ∅, m, counter').

(** The final step of [ExpressionGroup.construct]:
    [if !topLevel && len(a) > 1 { expr = fmt.Sprintf("(%v)", expr) }]. *)
Definition group_finish (topLevel : bool) (n : nat) (r : ConstructResult)
    : ConstructResult :=
  let '(expr, names, vals, c) := r in
  ((if negb topLevel && Nat.ltb 1 n then "(" ++ expr ++ ")" else expr),
   names, vals, c).

(** [construct] of the three implementations. The loop of
    [ExpressionGroup.construct] is the local [loop]: children are
    constructed with [topLevel = false], separated by [" " + op + " "];
    [for k, v := range placeholders { exprValues[k] = v }] overwrites the
    accumulated entries, which is the left-biased union
    [placeholders ∪ exprValues] (the branch [exprValues = placeholders]
    taken when [exprValues] is nil gives the same map). *)
Fixpoint construct (e : Expression) (counter : N) (topLevel : bool)
    {struct e} : ConstructResult :=
  match e with
  | ECondition c => Condition_construct c counter topLevel
  | EGroup es op =>
      let fix loop (i : nat) (a : list Expression) (expr : string)
          (names : gmap string string) (vals : gmap string Value) (counter : N)
          : ConstructResult :=
        match a with
        | [] => (expr, names, vals, counter)
        | x :: xs =>
            let expr := if Nat.ltb 0 i then expr ++ " " ++ op ++ " " else expr in
            let '(substring, nms, placeholders, newCounter) := construct x counter false in
            loop (S i) xs (expr ++ substring) (nms ∪ names) (placeholders ∪ vals) newCounter
        end in
      group_finish topLevel (length es) (loop 0%nat es "" ∅ ∅ counter)
  | ENegation inner =>
      let '(s, names, m, c) := construct inner counter topLevel in
      let r := "NOT " ++ s in
      ((if topLevel then r else "(" ++ r ++ ")"), names, m, c)
  end.

(** The loop of [ExpressionGroup.construct] as a top-level function of
    the child's [construct]; [construct_EGroup] below shows that it is the
    local [loop] of [construct]. *)
Fixpoint group_loop (child : Expression -> N -> bool -> ConstructResult)
    (op : string) (i : nat) (a : list Expression) (expr : string)
    (names : gmap string string) (vals : gmap string Value) (counter : N)
    : ConstructResult :=
  match a with
  | [] => (expr, names, vals, counter)
  | x :: xs =>
      let expr := if Nat.ltb 0 i then expr ++ " " ++ op ++ " " else expr in
      let '(substring, nms, placeholders, newCounter) := child x counter false in
      group_loop child op (S i) xs (expr ++ substring) (nms ∪ names)
        (placeholders ∪ vals) newCounter
  end.

(** [Or(c ...Expression)] and [And(c ...Expression)]. *)
Definition Or (c : list Expression) : Expression := EGroup c "OR".
Definition And (c : list Expression) : Expression := EGroup c "AND".

(** [Not(c Expression)]. *)
Definition Not (c : Expression) : Expression := ENegation c.

(** A field descriptor; only its name is used by the expressions. *)
Record DynamoField := mkDynamoField { name : string }.

(** [func (p *DynamoField) operation(op string, a interface{}) KeyCondition]:
    [fmt.Sprintf("%s %s %v", p.name, op, placeholders[0])]. A missing
    [placeholders[0]] cannot occur (one argument); it is read as [""]. *)
Definition operation (p : DynamoField) (op : string) (a : Value) : Expression :=
  ECondition (mkCondition
    (fun placeholders => name p ++ " " ++ op ++ " " ++ nth 0 placeholders "")
    [a]).

Definition eq_op : string := "=".

Definition Equals (p : DynamoField) (a : Value) : Expression := operation p eq_op a.

(** [func (p *DynamoField) Between(a, b interface{}) KeyCondition]:
    [fmt.Sprintf("("+p.name+" between %v and %v)", placeholders[0],
    placeholders[1])]; the field name is part of the format. There are
    always two placeholders (two arguments). *)
Definition Between (F : GoFmt) (p : DynamoField) (a b : Value) : Expression :=
  ECondition (mkCondition
    (fun placeholders => sprintf F ("(" ++ name p ++ " between %v and %v)")
                           [VStr (nth 0 placeholders ""); VStr (nth 1 placeholders "")])
    [a; b]).

(** [func (p *DynamoField) Exists() Condition]: no arguments. *)
Definition Exists (p : DynamoField) : Expression :=
  ECondition (mkCondition (fun _ => "attribute_exists(" ++ name p ++ ")") []).

(** [func (p *DynamoField) In(elems ...interface{}) Condition]. *)
Definition In_ (p : DynamoField) (elems : list Value) : Expression :=
  ECondition (mkCondition
    (fun placeholders => "(" ++ name p ++ " in (" ++ join "," placeholders ++ "))")
    elems).

(** ** Properties of placeholders *)

Fixpoint all_digits (s : string) : bool :=
  match s with
  | EmptyString => true
  | String ch rest =>
      Nat.leb 48 (nat_of_ascii ch) && Nat.leb (nat_of_ascii ch) 57 && all_digits rest
  end.

Lemma sanitize_app (a b : string) : sanitize (a ++ b) = sanitize a ++ sanitize b.
Proof. induction a as [|ch a IH]; simpl; [reflexivity | by rewrite IH]. Qed.

Lemma all_digits_string_of_uint (d : uint) : all_digits (NilEmpty.string_of_uint d) = true.
Proof. induction d; simpl; rewrite ?IHd; reflexivity. Qed.

Lemma all_digits_fmt_uint (n : N) : all_digits (fmt_uint n) = true.
Proof. apply all_digits_string_of_uint. Qed.

Lemma sanitize_digits (s : string) : all_digits s = true -> sanitize s = s.
Proof.
  induction s as [|ch s IH]; cbn [sanitize all_digits]; [done|].
  intros H. apply andb_prop in H as [H1 H2]. apply andb_prop in H1 as [Hlo Hhi].
  rewrite (IH H2). f_equal.
  unfold is_word_char. rewrite Hlo, Hhi.
  rewrite !orb_true_r. reflexivity.
Qed.

Lemma all_digits_no_underscore (s1 s2 : string) :
  all_digits (s1 ++ String "_" s2) = false.
Proof.
  induction s1 as [|ch s1 IH]; simpl; [reflexivity|].
  by rewrite IH, andb_false_r.
Qed.

(** The counter is the part after the last underscore. *)
Lemma underscore_suffix_unique (a1 a2 d1 d2 : string) :
  all_digits d1 = true -> all_digits d2 = true ->
  a1 ++ String "_" d1 = a2 ++ String "_" d2 -> d1 = d2.
Proof.
  revert a2. induction a1 as [|ch a1 IH]; intros a2 H1 H2 Heq;
    destruct a2 as [|ch2 a2]; simpl in Heq.
  - by injection Heq.
  - injection Heq as Hc Hd. subst ch2 d1. by rewrite all_digits_no_underscore in H1.
  - injection Heq as Hc Hd. subst ch d2. by rewrite all_digits_no_underscore in H2.
  - injection Heq as _ Heq. exact (IH a2 H1 H2 Heq).
Qed.

Lemma fmt_uint_inj (n1 n2 : N) : fmt_uint n1 = fmt_uint n2 -> n1 = n2.
Proof.
  unfold fmt_uint. intros H.
  assert (Hu : N.to_uint n1 = N.to_uint n2).
  { pose proof (NilEmpty.usu (N.to_uint n1)) as E1.
    pose proof (NilEmpty.usu (N.to_uint n2)) as E2.
    rewrite H, E2 in E1. by injection E1. }
  rewrite <- (DecimalN.Unsigned.of_to n1), <- (DecimalN.Unsigned.of_to n2).
  by rewrite Hu.
Qed.

(** [generatePlaceholder] as [":" ++ sanitized value ++ "_" ++ counter]. *)
Lemma generatePlaceholder_shape (a : Value) (c : N) :
  generatePlaceholder a c = ":" ++ sanitize (fmt_value a) ++ "_" ++ fmt_uint c.
Proof.
  unfold generatePlaceholder. rewrite !sanitize_app.
  rewrite (sanitize_digits (fmt_uint c)) by apply all_digits_fmt_uint.
  reflexivity.
Qed.

Lemma generatePlaceholder_counter_inj (a1 a2 : Value) (c1 c2 : N) :
  generatePlaceholder a1 c1 = generatePlaceholder a2 c2 -> c1 = c2.
Proof.
  rewrite !generatePlaceholder_shape. simpl. intros H. injection H as H.
  apply fmt_uint_inj.
  exact (underscore_suffix_unique _ _ _ _ (all_digits_fmt_uint c1)
           (all_digits_fmt_uint c2) H).
Qed.

Example generatePlaceholder_ex1 : generatePlaceholder (VStr "a@b.c") 12 = ":a_b_c_12".
Proof. reflexivity. Qed.

Example generatePlaceholder_ex2 :
  generatePlaceholder (VStr "x_1") 23 <> generatePlaceholder (VStr "x_12") 3.
Proof. vm_compute. discriminate. Qed.

(** ** C4 *)

(** C4: for all values [v1], [v2] and counters [c1 <> c2], the
    placeholders [generatePlaceholder v1 c1] and [generatePlaceholder v2 c2]
    differ, and each has the form [":" ++ sanitized value ++ "_" ++ counter],
    where sanitizing maps every character outside [[A-Za-z0-9_]] to ["_"]. *)
Theorem generatePlaceholder_distinct_counters (v1 v2 : Value) (c1 c2 : N) :
  c1 <> c2 ->
  generatePlaceholder v1 c1 <> generatePlaceholder v2 c2 /\
  generatePlaceholder v1 c1 = ":" ++ sanitize (fmt_value v1) ++ "_" ++ fmt_uint c1 /\
  generatePlaceholder v2 c2 = ":" ++ sanitize (fmt_value v2) ++ "_" ++ fmt_uint c2.
Proof.
  intros Hne. split; [|split; apply generatePlaceholder_shape].
  intros H. apply Hne. exact (generatePlaceholder_counter_inj _ _ _ _ H).
Qed.

Lemma generatePlaceholder_distinct_counters_witness :
  (1 <> 12)%N /\
  generatePlaceholder (VStr "a_1") 1 <> generatePlaceholder (VStr "a") 12 /\
  generatePlaceholder (VStr "a_1") 1 = ":" ++ sanitize (fmt_value (VStr "a_1")) ++ "_" ++ fmt_uint 1 /\
  generatePlaceholder (VStr "a") 12 = ":" ++ sanitize (fmt_value (VStr "a")) ++ "_" ++ fmt_uint 12.
Proof.
  assert (H : (1 <> 12)%N) by lia.
  split; [exact H|].
  exact (generatePlaceholder_distinct_counters (VStr "a_1") (VStr "a") 1 12 H).
Defined.

(** ** C6 *)

(** C6: [Equals] on the field ["age"] with argument [30], constructed at
    counter 0 and top level, renders ["age = :30_0"], with value map
    [{":30_0": 30}], no names and final counter 1. *)
Theorem equals_age_30_scenario :
  construct (Equals (mkDynamoField "age") (VInt 30)) 0 true =
  ("age = :30_0", ∅, {[":30_0" := VInt 30]}, 1%N).
Proof. vm_compute. reflexivity. Qed.

(** ** The structure of [construct] *)

Lemma construct_EGroup (es : list Expression) (op : string) (c : N) (tl : bool) :
  construct (EGroup es op) c tl =
  group_finish tl (length es) (group_loop construct op 0 es "" ∅ ∅ c).
Proof.
  cbn [construct]. f_equal.
  match goal with |- ?F 0%nat es _ _ _ c = _ => set (loop := F) end.
  assert (H : forall a i ex nm vs cn,
             loop i a ex nm vs cn = group_loop construct op i a ex nm vs cn).
  { induction a as [|x a IH]; intros i ex nm vs cn; [reflexivity|].
    unfold loop at 1. cbn beta iota. fold loop. cbn [group_loop].
    destruct (construct x cn false) as [[[sub nms] ph] nc]. apply IH. }
  apply H.
Qed.

(** An induction principle for the nested [Expression] type. *)
Section Expression_induction.
Variable P : Expression -> Prop.
Hypothesis HCondition : forall c, P (ECondition c).
Hypothesis HGroup : forall es op, Forall P es -> P (EGroup es op).
Hypothesis HNegation : forall e, P e -> P (ENegation e).

Fixpoint Expression_ind' (e : Expression) : P e :=
  match e with
  | ECondition c => HCondition c
  | EGroup es op =>
      HGroup es op
        ((fix go (l : list Expression) : Forall P l :=
            match l with
            | [] => Forall_nil_2 P
            | x :: xs => Forall_cons_2 P x xs (Expression_ind' x) (go xs)
            end) es)
  | ENegation e => HNegation e (Expression_ind' e)
  end.
End Expression_induction.

(** All leaf arguments of a tree, in the order [construct] visits them. *)
Fixpoint leaf_args (e : Expression) : list Value :=
  match e with
  | ECondition c => args c
  | EGroup es _ => flat_map leaf_args es
  | ENegation e => leaf_args e
  end.

(** The placeholders of a list of arguments whose first one gets counter
    [c]: the i-th argument gets [(c + i) mod 2^64]. *)
Fixpoint ph_list (l : list Value) (c : N) : list (string * Value) :=
  match l with
  | [] => []
  | b :: bs => (generatePlaceholder b c, b) :: ph_list bs (uint_incr c)
  end.

(** Inserting the pairs of a list from left to right (the last write wins). *)
Definition insert_all {V : Type} (l : list (string * V)) (m : gmap string V)
    : gmap string V :=
  foldl (fun acc kv => <[kv.1 := kv.2]> acc) m l.

Lemma insert_all_app {V : Type} (l1 l2 : list (string * V)) m :
  insert_all (l1 ++ l2) m = insert_all l2 (insert_all l1 m).
Proof. unfold insert_all. by rewrite foldl_app. Qed.

Lemma insert_all_union {V : Type} (l : list (string * V)) m acc :
  insert_all l m ∪ acc = insert_all l (m ∪ acc).
Proof.
  revert m. induction l as [|[k v] l IH]; intros m; [reflexivity|].
  unfold insert_all in *. cbn [foldl]. rewrite IH. f_equal.
  by rewrite insert_union_l.
Qed.

Lemma uint_incr_lt c : (uint_incr c < uint_modulus)%N.
Proof. unfold uint_incr, uint_modulus. apply N.mod_lt. lia. Qed.

Lemma mod_lt_modulus a : (a mod uint_modulus < uint_modulus)%N.
Proof. unfold uint_modulus. apply N.mod_lt. lia. Qed.

Lemma uint_incr_add c n :
  ((uint_incr c + n) mod uint_modulus = (c + 1 + n) mod uint_modulus)%N.
Proof.
  unfold uint_incr. rewrite N.Div0.add_mod_idemp_l. reflexivity.
Qed.

Lemma condition_loop_spec l c a m :
  (c < uint_modulus)%N ->
  condition_loop l c a m =
  ((a ++ (ph_list l c).*1)%list, insert_all (ph_list l c) m,
   ((c + N.of_nat (length l)) mod uint_modulus)%N).
Proof.
  revert c a m. induction l as [|b l IH]; intros c a m Hc.
  - cbn. rewrite app_nil_r, N.add_0_r, N.mod_small by exact Hc. reflexivity.
  - cbn [condition_loop ph_list]. rewrite IH by apply uint_incr_lt.
    cbn [fmap list_fmap fst length]. rewrite <- app_assoc. cbn [app].
    f_equal. rewrite uint_incr_add. f_equal. lia.
Qed.

Lemma ph_list_app l1 l2 c :
  (c < uint_modulus)%N ->
  ph_list (l1 ++ l2)%list c =
  (ph_list l1 c ++ ph_list l2 ((c + N.of_nat (length l1)) mod uint_modulus)%N)%list.
Proof.
  revert c. induction l1 as [|b l1 IH]; intros c Hc.
  - cbn. by rewrite N.add_0_r, N.mod_small.
  - cbn [app ph_list length]. rewrite IH by apply uint_incr_lt.
    cbn [app]. do 3 f_equal. rewrite uint_incr_add. f_equal. lia.
Qed.

Lemma counter_mod_add c n1 n2 :
  (((c + n1) mod uint_modulus + n2) mod uint_modulus =
   (c + (n1 + n2)) mod uint_modulus)%N.
Proof. rewrite N.Div0.add_mod_idemp_l. f_equal. lia. Qed.

Lemma group_finish_parts tl n r :
  res_names (group_finish tl n r) = res_names r /\
  res_values (group_finish tl n r) = res_values r /\
  res_counter (group_finish tl n r) = res_counter r.
Proof. destruct r as [[[ex nm] vs] c]. done. Qed.

(** The value map of a tree holds one entry per leaf argument, under
    consecutive counters, and the final counter is advanced by the number
    of leaf arguments (modulo [2^64]); the name map is empty. *)
Lemma construct_spec (e : Expression) :
  forall (c : N) (tl : bool), (c < uint_modulus)%N ->
  res_names (construct e c tl) = ∅ /\
  res_values (construct e c tl) = insert_all (ph_list (leaf_args e) c) ∅ /\
  res_counter (construct e c tl) =
    ((c + N.of_nat (length (leaf_args e))) mod uint_modulus)%N.
Proof.
  induction e as [cd | es op IHes | e IH] using Expression_ind'; intros c tl Hc.
  - cbn [construct leaf_args]. unfold Condition_construct.
    rewrite condition_loop_spec by exact Hc. done.
  - rewrite construct_EGroup. cbn [leaf_args].
    destruct (group_finish_parts tl (length es)
                (group_loop construct op 0 es "" ∅ ∅ c)) as (-> & -> & ->).
    generalize 0%nat, "", (∅ : gmap string string), (∅ : gmap string Value).
    revert c Hc. induction IHes as [|x es Hx Hes IH]; intros c Hc i ex nm vs.
    + cbn. rewrite N.add_0_r, N.mod_small by exact Hc. done.
    + cbn [group_loop flat_map].
      destruct (Hx c false Hc) as (Hn & Hv & Hcnt).
      destruct (construct x c false) as [[[sub nms] ph] nc].
      cbn in Hn, Hv, Hcnt. subst nms ph nc.
      destruct (IH _ (mod_lt_modulus (c + N.of_nat (length (leaf_args x))))
                  (S i) ((if Nat.ltb 0 i then ex ++ " " ++ op ++ " " else ex) ++ sub)
                  (∅ ∪ nm) (insert_all (ph_list (leaf_args x) c) ∅ ∪ vs))
        as (-> & -> & ->).
      rewrite map_empty_union, insert_all_union, map_empty_union.
      rewrite ph_list_app, insert_all_app, length_app, counter_mod_add by exact Hc.
      split; [done|]. split; [done|]. f_equal. lia.
  - cbn [construct leaf_args]. destruct (IH c tl Hc) as (Hn & Hv & Hcnt).
    destruct (construct e c tl) as [[[s nm] m] c']. done.
Qed.

Lemma ph_list_length l c : length (ph_list l c) = length l.
Proof. revert c. induction l as [|b l IH]; intros c; cbn; [done | by rewrite IH]. Qed.

Lemma ph_list_lookup l c i b :
  (c < uint_modulus)%N -> l !! i = Some b ->
  ph_list l c !! i =
  Some (generatePlaceholder b ((c + N.of_nat i) mod uint_modulus)%N, b).
Proof.
  revert c i. induction l as [|b' l IH]; intros c i Hc Hl; [done|].
  destruct i as [|i]; cbn in Hl |- *.
  - injection Hl as <-. by rewrite N.add_0_r, N.mod_small.
  - transitivity (Some (generatePlaceholder b
                          ((uint_incr c + N.of_nat i) mod uint_modulus)%N, b)).
    + exact (IH (uint_incr c) i (uint_incr_lt c) Hl).
    + rewrite uint_incr_add. do 4 f_equal. lia.
Qed.

Lemma ph_list_imap l c :
  (c < uint_modulus)%N ->
  (ph_list l c).*1 =
  imap (fun i b => generatePlaceholder b ((c + N.of_nat i) mod uint_modulus)%N) l.
Proof.
  revert c. induction l as [|b l IH]; intros c Hc; [done|].
  cbn [ph_list fmap list_fmap fst]. rewrite imap_cons, N.add_0_r, N.mod_small by exact Hc.
  f_equal. rewrite (IH _ (uint_incr_lt c)). apply imap_ext. intros i x _.
  cbn. rewrite uint_incr_add. do 2 f_equal. lia.
Qed.

Lemma counter_mod_inj c i j :
  (c < uint_modulus)%N -> (i < uint_modulus)%N -> (j < uint_modulus)%N ->
  ((c + i) mod uint_modulus = (c + j) mod uint_modulus)%N -> i = j.
Proof.
  intros Hc Hi Hj Heq.
  assert (HW : (uint_modulus <> 0)%N) by (unfold uint_modulus; lia).
  pose proof (N.div_mod (c + i) uint_modulus HW) as Di.
  pose proof (N.div_mod (c + j) uint_modulus HW) as Dj.
  assert (Qi : ((c + i) / uint_modulus < 2)%N)
    by (apply N.Div0.div_lt_upper_bound; lia).
  assert (Qj : ((c + j) / uint_modulus < 2)%N)
    by (apply N.Div0.div_lt_upper_bound; lia).
  rewrite Heq in Di.
  remember ((c + i) / uint_modulus)%N as qi.
  remember ((c + j) / uint_modulus)%N as qj.
  remember ((c + j) mod uint_modulus)%N as r.
  remember uint_modulus as W.
  assert (Hq : ((qi = 0 \/ qi = 1) /\ (qj = 0 \/ qj = 1))%N) by lia.
  destruct Hq as [[-> | ->] [-> | ->]]; lia.
Qed.

Lemma ph_list_keys_NoDup l c :
  (c < uint_modulus)%N -> (N.of_nat (length l) <= uint_modulus)%N ->
  NoDup (ph_list l c).*1.
Proof.
  intros Hc Hlen. apply NoDup_alt. intros i j k Hi Hj.
  rewrite list_lookup_fmap in Hi, Hj.
  destruct (l !! i) as [bi|] eqn:Ei; [|by rewrite lookup_ge_None_2 in Hi;
    [|rewrite ph_list_length; by apply lookup_ge_None]].
  destruct (l !! j) as [bj|] eqn:Ej; [|by rewrite lookup_ge_None_2 in Hj;
    [|rewrite ph_list_length; by apply lookup_ge_None]].
  rewrite (ph_list_lookup _ _ _ _ Hc Ei) in Hi.
  rewrite (ph_list_lookup _ _ _ _ Hc Ej) in Hj.
  cbn in Hi, Hj. injection Hi as Hi. injection Hj as Hj. rewrite <- Hj in Hi.
  apply generatePlaceholder_counter_inj in Hi.
  apply lookup_lt_Some in Ei, Ej.
  apply Nat2N.inj. apply (counter_mod_inj c); [done | lia | lia | done].
Qed.

Lemma insert_all_cons {V : Type} k (v : V) l m :
  insert_all ((k, v) :: l) m = insert_all l (<[k := v]> m).
Proof. reflexivity. Qed.

Lemma insert_all_notin {V : Type} (l : list (string * V)) m k :
  k ∉ l.*1 -> insert_all l m !! k = m !! k.
Proof.
  revert m. induction l as [|[k' v'] l IH]; intros m Hk; [done|].
  cbn in Hk. apply not_elem_of_cons in Hk as [Hne Hk].
  rewrite insert_all_cons, IH by done.
  by rewrite lookup_insert_ne.
Qed.

Lemma insert_all_lookup {V : Type} (l : list (string * V)) m i k v :
  NoDup l.*1 -> l !! i = Some (k, v) -> insert_all l m !! k = Some v.
Proof.
  revert m i. induction l as [|[k' v'] l IH]; intros m i Hnd Hi; [done|].
  cbn in Hnd. apply NoDup_cons in Hnd as [Hk' Hnd].
  rewrite insert_all_cons.
  destruct i as [|i]; cbn in Hi.
  - injection Hi as <- <-. rewrite insert_all_notin by done.
    by rewrite lookup_insert_eq.
  - exact (IH _ i Hnd Hi).
Qed.

Lemma insert_all_size {V : Type} (l : list (string * V)) m :
  NoDup l.*1 -> (forall k, k ∈ l.*1 -> m !! k = None) ->
  size (insert_all l m) = (size m + length l)%nat.
Proof.
  revert m. induction l as [|[k v] l IH]; intros m Hnd Hm; [cbn; lia|].
  cbn in Hnd. apply NoDup_cons in Hnd as [Hk Hnd].
  rewrite insert_all_cons, IH; [| done |].
  - rewrite map_size_insert_None; [cbn [length]; lia|]. apply Hm. cbn. left.
  - intros k' Hk'. rewrite lookup_insert_ne; [apply Hm; cbn; by right|].
    intros ->. done.
Qed.

(** ** C1 *)

(** C1: for every tree [e] with [N = length (leaf_args e)] leaf arguments
    and every starting counter [c] (a [uint]), [construct] yields a value
    map with exactly [N] distinct placeholder keys, the i-th leaf argument
    stored under its placeholder with counter [c + i], and the final
    counter [c + N] (both in [uint] arithmetic, modulo [2^64]). A leaf
    [Condition] hands its [exprF] the placeholders of its arguments at
    counters [c], [c + 1], ... and returns an empty name map. The bound
    [N <= 2^64] excludes trees with more leaf arguments than there are
    [uint] counters. *)
Theorem construct_placeholder_count (e : Expression) (c : N) (tl : bool) :
  (c < uint_modulus)%N ->
  (N.of_nat (length (leaf_args e)) <= uint_modulus)%N ->
  size (res_values (construct e c tl)) = length (leaf_args e) /\
  res_counter (construct e c tl) =
    ((c + N.of_nat (length (leaf_args e))) mod uint_modulus)%N /\
  (forall (i : nat) (b : Value), leaf_args e !! i = Some b ->
     res_values (construct e c tl)
       !! generatePlaceholder b ((c + N.of_nat i) mod uint_modulus)%N = Some b) /\
  (forall cd : Condition,
     res_expr (construct (ECondition cd) c tl) =
       exprF cd (imap (fun i b => generatePlaceholder b
                                    ((c + N.of_nat i) mod uint_modulus)%N) (args cd)) /\
     res_names (construct (ECondition cd) c tl) = ∅).
Proof.
  intros Hc Hlen.
  destruct (construct_spec e c tl Hc) as (_ & Hv & Hcnt).
  pose proof (ph_list_keys_NoDup _ _ Hc Hlen) as Hnd.
  split; [|split; [exact Hcnt|split]].
  - rewrite Hv, insert_all_size, ph_list_length; [| done |].
    + rewrite map_size_empty. lia.
    + intros k _. apply lookup_empty.
  - intros i b Hi. rewrite Hv.
    exact (insert_all_lookup _ _ i _ _ Hnd (ph_list_lookup _ _ _ _ Hc Hi)).
  - intros cd. cbn [construct]. unfold Condition_construct.
    rewrite condition_loop_spec by exact Hc. cbn.
    split; [|done]. f_equal. by apply ph_list_imap.
Qed.

Lemma construct_placeholder_count_witness :
  let e := And [Equals (mkDynamoField "a") (VInt 1);
                Not (Between (mkGoFmt (fun _ _ => "") (fun _ => "")) (mkDynamoField "b") (VStr "x") (VStr "x"))] in
  ((5 < uint_modulus)%N /\
   (N.of_nat (length (leaf_args e)) <= uint_modulus)%N) /\
  (size (res_values (construct e 5 true)) = length (leaf_args e) /\
  res_counter (construct e 5 true) =
    ((5 + N.of_nat (length (leaf_args e))) mod uint_modulus)%N /\
  (forall (i : nat) (b : Value), leaf_args e !! i = Some b ->
     res_values (construct e 5 true)
       !! generatePlaceholder b ((5 + N.of_nat i) mod uint_modulus)%N = Some b) /\
  (forall cd : Condition,
     res_expr (construct (ECondition cd) 5 true) =
       exprF cd (imap (fun i b => generatePlaceholder b
                                    ((5 + N.of_nat i) mod uint_modulus)%N) (args cd)) /\
     res_names (construct (ECondition cd) 5 true) = ∅)).
Proof.
  intros e.
  assert (H1 : (5 < uint_modulus)%N) by (unfold uint_modulus; lia).
  assert (H2 : (N.of_nat (length (leaf_args e)) <= uint_modulus)%N)
    by (unfold uint_modulus; vm_compute; discriminate).
  split; [split; [exact H1 | exact H2]|].
  exact (construct_placeholder_count e 5 true H1 H2).
Defined.

Example construct_between_twice :
  map_to_list (res_values (construct
    (And [Equals (mkDynamoField "a") (VInt 1);
          Not (Between (mkGoFmt (fun _ _ => "") (fun _ => "")) (mkDynamoField "b") (VStr "x") (VStr "x"))]) 5 true)) =
  [(":1_5", VInt 1); (":x_7", VStr "x"); (":x_6", VStr "x")].
Proof. vm_compute. reflexivity. Qed.

(** ** Rendering of groups and negations *)

Lemma string_app_cons (ch : ascii) (a b : string) : String ch a ++ b = String ch (a ++ b).
Proof. reflexivity. Qed.

Lemma string_app_assoc (a b d : string) : (a ++ b) ++ d = a ++ (b ++ d).
Proof.
  induction a as [|ch a IH]; [done|]. by rewrite !string_app_cons, IH.
Qed.

Lemma string_app_nil_r (a : string) : a ++ "" = a.
Proof. induction a as [|ch a IH]; [done|]. by rewrite string_app_cons, IH. Qed.

(** The strings of the children of a group, each constructed with
    [topLevel = false] and the counter returned by its left sibling. *)
Fixpoint children_exprs (es : list Expression) (c : N) : list string :=
  match es with
  | [] => []
  | x :: xs =>
      res_expr (construct x c false) :: children_exprs xs (res_counter (construct x c false))
  end.

(** [sep ++ s1 ++ sep ++ s2 ++ ...]. *)
Fixpoint prefix_each (sep : string) (l : list string) : string :=
  match l with
  | [] => ""
  | s :: l => sep ++ s ++ prefix_each sep l
  end.

Lemma join_cons (sep x : string) (l : list string) :
  join sep (x :: l) = x ++ prefix_each sep l.
Proof.
  revert x. induction l as [|y l IH]; intros x.
  - cbn. by rewrite string_app_nil_r.
  - change (join sep (x :: y :: l)) with (x ++ sep ++ join sep (y :: l)).
    by rewrite IH.
Qed.

Lemma group_loop_expr_later op i es ex nm vs c :
  (0 < i)%nat ->
  res_expr (group_loop construct op i es ex nm vs c) =
  ex ++ prefix_each (" " ++ op ++ " ") (children_exprs es c).
Proof.
  revert i ex nm vs c. induction es as [|x es IH]; intros i ex nm vs c Hi.
  - cbn. by rewrite string_app_nil_r.
  - cbn [group_loop children_exprs].
    destruct (construct x c false) as [[[sub nms] ph] nc] eqn:Ex.
    rewrite IH by lia. cbn [res_expr res_counter fst snd prefix_each].
    destruct i as [|i]; [lia|]. cbn [Nat.ltb Nat.leb].
    by rewrite !string_app_assoc.
Qed.

Lemma group_loop_expr op es nm vs c :
  res_expr (group_loop construct op 0 es "" nm vs c) =
  join (" " ++ op ++ " ") (children_exprs es c).
Proof.
  destruct es as [|x es]; [reflexivity|].
  cbn [group_loop children_exprs].
  destruct (construct x c false) as [[[sub nms] ph] nc] eqn:Ex.
  rewrite group_loop_expr_later by lia. rewrite join_cons. reflexivity.
Qed.

(** ** C3 *)

(** C3: an AND/OR group renders its children (each at [topLevel = false],
    joined by [" " ++ op ++ " "]) and wraps the result in parentheses
    exactly when it is not at top level and has more than one child. *)
Theorem group_parenthesization (es : list Expression) (op : string) (c : N) (tl : bool) :
  res_expr (construct (EGroup es op) c tl) =
  (if negb tl && Nat.ltb 1 (length es)
   then "(" ++ join (" " ++ op ++ " ") (children_exprs es c) ++ ")"
   else join (" " ++ op ++ " ") (children_exprs es c)).
Proof.
  rewrite construct_EGroup, <- (group_loop_expr op es ∅ ∅ c).
  destruct (group_loop construct op 0 es "" ∅ ∅ c) as [[[ex nm] vs] c'].
  reflexivity.
Qed.

Example group_single_child_nested :
  res_expr (construct (Or [Equals (mkDynamoField "a") (VInt 1)]) 0 false) = "a = :1_0".
Proof. reflexivity. Qed.

Example group_two_children_top :
  res_expr (construct (Or [Equals (mkDynamoField "a") (VInt 1);
                           Equals (mkDynamoField "b") (VInt 2)]) 0 true) =
  "a = :1_0 OR b = :2_1".
Proof. reflexivity. Qed.

Example group_two_children_nested :
  res_expr (construct (Or [Equals (mkDynamoField "a") (VInt 1);
                           Equals (mkDynamoField "b") (VInt 2)]) 0 false) =
  "(a = :1_0 OR b = :2_1)".
Proof. reflexivity. Qed.

(** ** C7 *)

(** C7: [Not e] constructs [e] with the same counter and the same
    [topLevel] flag, prefixes ["NOT "] and parenthesizes the result exactly
    when it is not at top level; the maps and the counter are those of [e]. *)
Theorem negation_construct (e : Expression) (c : N) (tl : bool) :
  res_expr (construct (Not e) c tl) =
    (if tl then "NOT " ++ res_expr (construct e c tl)
     else "(NOT " ++ res_expr (construct e c tl) ++ ")") /\
  res_names (construct (Not e) c tl) = res_names (construct e c tl) /\
  res_values (construct (Not e) c tl) = res_values (construct e c tl) /\
  res_counter (construct (Not e) c tl) = res_counter (construct e c tl).
Proof.
  unfold Not. cbn [construct].
  destruct (construct e c tl) as [[[s nm] m] c'].
  destruct tl; done.
Qed.

Example negation_top :
  res_expr (construct (Not (Equals (mkDynamoField "x") (VInt 7))) 0 true) = "NOT x = :7_0".
Proof. reflexivity. Qed.

Example negation_nested :
  res_expr (construct (And [Exists (mkDynamoField "y");
                            Not (Equals (mkDynamoField "x") (VInt 7))]) 0 true) =
  "attribute_exists(y) AND (NOT x = :7_0)".
Proof. reflexivity. Qed.

(** ** Go's map iteration order *)

(** [for k, v := range src { acc[k] = v }]: Go ranges over a map in an
    unspecified order, which may change between runs; [l] is the order
    picked by one run. *)
Definition range_assign {V : Type} (src acc out : gmap string V) : Prop :=
  exists l : list (string * V),
    l ≡ₚ map_to_list src /\ out = insert_all l acc.

Lemma insert_all_list_to_map {V : Type} (l : list (string * V)) m :
  NoDup l.*1 -> insert_all l m = list_to_map l ∪ m.
Proof.
  revert m. induction l as [|[k v] l IH]; intros m Hnd.
  - by rewrite list_to_map_nil, map_empty_union.
  - cbn in Hnd. apply NoDup_cons in Hnd as [Hk Hnd].
    rewrite insert_all_cons, IH by done. rewrite list_to_map_cons.
    rewrite <- insert_union_l, insert_union_r; [done|].
    by apply not_elem_of_list_to_map_1.
Qed.

(** Whatever order Go picks, the loop computes the left-biased union. *)
Lemma range_assign_union {V : Type} (src acc out : gmap string V) :
  range_assign src acc out -> out = src ∪ acc.
Proof.
  intros (l & Hperm & ->).
  assert (Hnd : NoDup l.*1).
  { rewrite Hperm. apply NoDup_fst_map_to_list. }
  rewrite insert_all_list_to_map by done.
  rewrite (list_to_map_proper l (map_to_list src)) by done.
  by rewrite list_to_map_to_list.
Qed.

Lemma range_assign_exists {V : Type} (src acc : gmap string V) :
  range_assign src acc (src ∪ acc).
Proof.
  exists (map_to_list src). split; [done|].
  rewrite insert_all_list_to_map by apply NoDup_fst_map_to_list.
  by rewrite list_to_map_to_list.
Qed.

(** [construct] as a relation: [ConstructR e c tl r] when some run of
    [e.construct(c, tl)], with some choice of map iteration orders,
    returns [r]. *)
Inductive ConstructR : Expression -> N -> bool -> ConstructResult -> Prop :=
| CR_Condition cd c tl :
    ConstructR (ECondition cd) c tl (Condition_construct cd c tl)
| CR_Group es op c tl r :
    GroupR op 0 es "" ∅ ∅ c r ->
    ConstructR (EGroup es op) c tl (group_finish tl (length es) r)
| CR_Negation e c tl s nm m c' :
    ConstructR e c tl (s, nm, m, c') ->
    ConstructR (ENegation e) c tl
      ((if tl then "NOT " ++ s else "(" ++ ("NOT " ++ s) ++ ")"), nm, m, c')
with GroupR : string -> nat -> list Expression -> string -> gmap string string ->
              gmap string Value -> N -> ConstructResult -> Prop :=
| GR_nil op i ex nm vs c :
    GroupR op i [] ex nm vs c (ex, nm, vs, c)
| GR_cons op i x xs ex nm vs c sub nms ph nc nm' vs' r :
    ConstructR x c false (sub, nms, ph, nc) ->
    range_assign ph vs vs' ->
    range_assign nms nm nm' ->
    GroupR op (S i) xs
      ((if Nat.ltb 0 i then ex ++ " " ++ op ++ " " else ex) ++ sub) nm' vs' nc r ->
    GroupR op i (x :: xs) ex nm vs c r.

Lemma construct_ConstructR (e : Expression) :
  forall c tl, ConstructR e c tl (construct e c tl).
Proof.
  induction e as [cd | es op IHes | e IH] using Expression_ind'; intros c tl.
  - apply CR_Condition.
  - rewrite construct_EGroup. apply CR_Group.
    generalize 0%nat, "", (∅ : gmap string string), (∅ : gmap string Value).
    revert c. induction IHes as [|x es Hx Hes IH]; intros c i ex nm vs.
    + apply GR_nil.
    + cbn [group_loop].
      destruct (construct x c false) as [[[sub nms] ph] nc] eqn:Ex.
      eapply GR_cons.
      * rewrite <- Ex. apply Hx.
      * apply range_assign_exists.
      * apply range_assign_exists.
      * apply IH.
  - cbn [construct]. destruct (construct e c tl) as [[[s nm] m] c'] eqn:Ee.
    apply CR_Negation. rewrite <- Ee. apply IH.
Qed.

Lemma ConstructR_construct (e : Expression) :
  forall c tl r, ConstructR e c tl r -> r = construct e c tl.
Proof.
  induction e as [cd | es op IHes | e IH] using Expression_ind'; intros c tl r H.
  - inversion H; subst. reflexivity.
  - inversion H as [| es' op' c' tl' r' HG |]; subst.
    rewrite construct_EGroup. f_equal. clear H.
    revert HG. generalize 0%nat, "", (∅ : gmap string string), (∅ : gmap string Value).
    revert c. induction IHes as [|x es Hx Hes IHl]; intros c i ex nm vs HG.
    + inversion HG; subst. reflexivity.
    + inversion HG as [| ? ? ? ? ? ? ? ? sub nms ph nc nm' vs' ? Hx' Hv Hn Hrest];
        subst.
      cbn [group_loop]. rewrite <- (Hx _ _ _ Hx').
      apply range_assign_union in Hv, Hn. subst.
      exact (IHl _ _ _ _ _ Hrest).
  - inversion H as [| | e' c' tl' s nm m c'' He]; subst.
    cbn [construct]. rewrite <- (IH _ _ _ He). reflexivity.
Qed.

(** ** C8 *)

(** C8: [construct] is deterministic. Every run of [e.construct(c, tl)],
    whatever order Go picks when it ranges over the children's maps,
    returns the same result, namely [construct e c tl]; so two invocations
    with the same tree and counter return the same string, maps and
    counter. *)
Theorem construct_deterministic (e : Expression) (c : N) (tl : bool) :
  ConstructR e c tl (construct e c tl) /\
  (forall r1 r2, ConstructR e c tl r1 -> ConstructR e c tl r2 ->
     r1 = r2 /\ r1 = construct e c tl).
Proof.
  split; [apply construct_ConstructR|].
  intros r1 r2 H1 H2.
  apply ConstructR_construct in H1, H2. subst. split; reflexivity.
Qed.

(** ** Update clauses ([expression.go], the variant whose render function
    also returns a name map) *)

Module UpdateV4.

(** [type UpdateExpression struct { op string; f func(counter uint) (...) }] *)
Record UpdateExpression := mkUpdateExpression {
  op : string;
  f : N -> ConstructResult
}.

(** [func (Field *DynamoField) SetField(a interface{}, onlyIfEmpty bool)] *)
Definition SetField (Field : DynamoField) (a : Value) (onlyIfEmpty : bool) : UpdateExpression :=
  mkUpdateExpression "SET" (fun c =>
    let ph := generatePlaceholder a c in
    let r := if onlyIfEmpty then "if_not_exists(" ++ name Field ++ "," ++ ph ++ ")" else ph in
    let s := name Field ++ " = " ++ r in
    let m : gmap string Value := {[ph := a]} in
    (s, ∅, m, uint_incr c)).

(** [func (Field *DynamoField) RemoveField()] *)
Definition RemoveField (Field : DynamoField) : UpdateExpression :=
  mkUpdateExpression "REMOVE" (fun c => (name Field, ∅, ∅, uint_incr c)).

(** [func (Field *dynamoListField) Append(a interface{})]: the field name
    is part of the [Sprintf] format. *)
Definition ListField_Append (F : GoFmt) (Field : DynamoField) (a : Value) : UpdateExpression :=
  mkUpdateExpression "SET" (fun c =>
    let ph := generatePlaceholder a c in
    let s := sprintf F (name Field ++ " = list_append(%v," ++ name Field ++ ")") [VStr ph] in
    let m : gmap string Value := {[ph := VList [a]]} in
    (s, ∅, m, uint_incr c)).

(** [func (Field *dynamoListField) Set(index int, a interface{})]:
    [fmt.Sprintf(Field.name+"[%v] = %v", index, ph)], the field name
    being part of the format. *)
Definition ListField_Set (F : GoFmt) (Field : DynamoField) (index : Z) (a : Value) : UpdateExpression :=
  mkUpdateExpression "SET" (fun c =>
    let ph := generatePlaceholder a c in
    let s := sprintf F (name Field ++ "[%v] = %v") [VInt index; VStr ph] in
    let m : gmap string Value := {[ph := VList [a]]} in
    (s, ∅, m, uint_incr c)).

(** [func (Field *dynamoListField) Remove(index int)]: no [c++]. *)
Definition ListField_Remove (Field : DynamoField) (index : Z) : UpdateExpression :=
  mkUpdateExpression "REMOVE" (fun c =>
    let s := name Field ++ "[" ++ fmt_int index ++ "]" in
    (s, ∅, ∅, c)).

(** [func (Field *dynamoMapField) Set(key string, a interface{})]: the
    placeholder is generated from the key. *)
Definition MapField_Set (Field : DynamoField) (key : string) (a : Value) : UpdateExpression :=
  mkUpdateExpression "SET" (fun c =>
    let ph := generatePlaceholder (VStr key) c in
    let s := name Field ++ "." ++ key ++ " = " ++ ph in
    let m : gmap string Value := {[ph := a]} in
    (s, ∅, m, uint_incr c)).

(** [func (Field *dynamoMapField) Remove(key string)] *)
Definition MapField_Remove (Field : DynamoField) (key : string) : UpdateExpression :=
  mkUpdateExpression "REMOVE" (fun c =>
    let s := name Field ++ "." ++ key in
    (s, ∅, ∅, uint_incr c)).

End UpdateV4.



(** ** C9 *)





Example list_set_example :
  forall F, UpdateV4.f (UpdateV4.ListField_Set F (mkDynamoField "tags") 2 (VStr "x")) 7 =
  ("tags[2] = :x_7", ∅, {[":x_7" := VList [VStr "x"]]}, 8%N).
Proof. intros F. vm_compute. reflexivity. Qed.

(** With a [%] in the field name, the name's directive is read by
    [fmt]: [%%] prints one [%], and from [%d] on the output is [fmt]'s. *)
Example list_set_percent_example :
  forall F,
    res_expr (UpdateV4.f (UpdateV4.ListField_Set F (mkDynamoField "a%%b") 2 (VStr "x")) 7)
      = "a%b[2] = :x_7" /\
    res_expr (UpdateV4.f (UpdateV4.ListField_Set F (mkDynamoField "a%d") 2 (VStr "x")) 7)
      = "a" ++ directive F "d[%v] = %v" [VInt 2; VStr ":x_7"].
Proof. intros F. split; vm_compute; reflexivity. Qed.

(** ** C10 *)

(** C10: [RemoveField] and a map field's [Remove(key)] return the counter
    plus one with an empty value map, a list field's [Remove(index)]
    returns the counter unchanged with an empty value map; so the counter
    returned by an update clause is not in general the starting counter
    plus the number of placeholders it generated. *)
Theorem remove_clause_counters (Field : DynamoField) (key : string) (index : Z) (c : N) :
  res_counter (UpdateV4.f (UpdateV4.RemoveField Field) c) = uint_incr c /\
  res_values (UpdateV4.f (UpdateV4.RemoveField Field) c) = ∅ /\
  res_counter (UpdateV4.f (UpdateV4.MapField_Remove Field key) c) = uint_incr c /\
  res_values (UpdateV4.f (UpdateV4.MapField_Remove Field key) c) = ∅ /\
  res_counter (UpdateV4.f (UpdateV4.ListField_Remove Field index) c) = c /\
  res_values (UpdateV4.f (UpdateV4.ListField_Remove Field index) c) = ∅ /\
  ~ (forall (u : UpdateV4.UpdateExpression) (c0 : N),
       res_counter (UpdateV4.f u c0) =
       ((c0 + N.of_nat (size (res_values (UpdateV4.f u c0)))) mod uint_modulus)%N).
Proof.
  do 6 (split; [done|]).
  intros H. specialize (H (UpdateV4.RemoveField Field) 0%N).
  cbn in H. rewrite map_size_empty in H. vm_compute in H. discriminate.
Qed.

(** ** Requests that merge placeholder maps ([domino.go]) *)

(** [dynamodbattribute.Marshal] is modelled as the identity on [Value]:
    it does not fail on the values modelled here, and the key under which
    [appendAttribute] stores the result is all that matters below. *)
Definition appendAttribute (m : gmap string Value) (key : string) (value : Value)
    : gmap string Value :=
  <[key := value]> m.

(** The fields of [dynamodb.QueryInput] that [Query] and
    [SetFilterExpression] write. *)
Record QueryInput := mkQueryInput {
  KeyConditionExpression : string;
  FilterExpression : option string;
  ExpressionAttributeValues : gmap string Value
}.

(** [func (table DynamoTable) Query(partitionKeyCondition, rangeKeyCondition)]:
    the key condition is [And(partition, range)] when a range condition is
    given, constructed with [construct(0, true)]; each entry of its value
    map goes through [appendAttribute]. The variant of [construct] called
    here returns no name map; its string, value map and counter are those
    of [construct]. Keys of one Go map are distinct, so the order of
    [for k, v := range m] does not matter ([range_assign_union]). *)
Definition Query (partitionKeyCondition : Expression)
    (rangeKeyCondition : option Expression) : QueryInput :=
  let e := match rangeKeyCondition with
           | Some r => And [partitionKeyCondition; r]
           | None => partitionKeyCondition
           end in
  let '(s, _, m, _) := construct e 0 true in
  mkQueryInput s None (m ∪ ∅).

(** [func (d *query) SetFilterExpression(c Expression)]: constructed with
    [construct(1, true)]; its entries are added with [appendAttribute],
    overwriting entries of the same key. *)
Definition SetFilterExpression (d : QueryInput) (c : Expression) : QueryInput :=
  let '(s, _, m, _) := construct c 1 true in
  mkQueryInput (KeyConditionExpression d) (Some s) (m ∪ ExpressionAttributeValues d).

(** [appendAttribute] over the entries of a map, in any order, is the
    left-biased union. *)
Lemma appendAttribute_range (src acc out : gmap string Value) :
  (exists l : list (string * Value), l ≡ₚ map_to_list src /\
     out = foldl (fun m kv => appendAttribute m kv.1 kv.2) acc l) ->
  out = src ∪ acc.
Proof. intros (l & Hp & ->). apply range_assign_union. by exists l. Qed.

(** The failing input of C2: partition key ["email" = "a"], range key
    ["password" = "p-w"], filter ["password" = "p.w"]. *)
Definition c2_partition : Expression := Equals (mkDynamoField "email") (VStr "a").
Definition c2_range : Expression := Equals (mkDynamoField "password") (VStr "p-w").
Definition c2_filter : Expression := Equals (mkDynamoField "password") (VStr "p.w").

(** ** C2 *)

(** C2 (code_bug): [Query] with a range key condition constructs the key
    condition over counters 0 and 1, and [SetFilterExpression] starts the
    filter at counter 1, so the ranges overlap. On the input above both
    trees generate the placeholder [":p_w_1"], and in the merged request
    it is bound to the filter's value ["p.w"], not to the range key's
    value ["p-w"] that the key condition expression refers to. *)
Theorem query_filter_placeholder_collision :
  let kc := construct (And [c2_partition; c2_range]) 0 true in
  let fc := construct c2_filter 1 true in
  let q := SetFilterExpression (Query c2_partition (Some c2_range)) c2_filter in
  res_counter kc = 2%N /\
  res_values kc !! ":p_w_1" = Some (VStr "p-w") /\
  res_values fc !! ":p_w_1" = Some (VStr "p.w") /\
  KeyConditionExpression q = "email = :a_0 AND password = :p_w_1" /\
  FilterExpression q = Some "password = :p_w_1" /\
  ExpressionAttributeValues q !! ":p_w_1" = Some (VStr "p.w").
Proof. vm_compute. repeat split. Qed.

(** ** Update clauses and [SetUpdateExpression] ([domino.go]) *)

Module UpdateV3.

(** [type updateExpression struct { op string;
    f func(counter uint) (string, map[string]interface{}, uint) }] *)
Record updateExpression := mkUpdateExpression {
  op : string;
  f : N -> string * gmap string Value * N
}.

(** [func (field *dynamoField) SetField(a interface{}, onlyIfEmpty bool)] *)
Definition SetField (field : DynamoField) (a : Value) (onlyIfEmpty : bool) : updateExpression :=
  mkUpdateExpression "SET" (fun c =>
    let ph := generatePlaceholder a c in
    let r := if onlyIfEmpty then "if_not_exists(" ++ name field ++ "," ++ ph ++ ")" else ph in
    let s := name field ++ " = " ++ r in
    let m : gmap string Value := {[ph := a]} in
    (s, m, uint_incr c)).

(** [func (field *dynamoCollectionField) Append(a interface{})]: [fmt.Sprintf(field.name+" = list_append(%v,"+field.name+")", ph)],
    the field name being part of the format. *)
Definition Append (F : GoFmt) (field : DynamoField) (a : Value) : updateExpression :=
  mkUpdateExpression "SET" (fun c =>
    let ph := generatePlaceholder a c in
    let s := sprintf F (name field ++ " = list_append(%v," ++ name field ++ ")") [VStr ph] in
    let m : gmap string Value := {[ph := VList [a]]} in
    (s, m, uint_incr c)).

(** [func (field *Map) RemoveKey(s string)] *)
Definition RemoveKey (field : DynamoField) (s : string) : updateExpression :=
  mkUpdateExpression "REMOVE" (fun c => (s, ∅, uint_incr c)).

(** [func (field *dynamoCollectionField) RemoveElemIndex(idx uint)] *)
Definition RemoveElemIndex (field : DynamoField) (idx : N) : updateExpression :=
  mkUpdateExpression "REMOVE" (fun c => (name field ++ "[" ++ fmt_uint idx ++ "]", ∅, uint_incr c)).

(** The fields of [dynamodb.UpdateItemInput] that [SetUpdateExpression]
    writes. *)
Record UpdateItemInput := mkUpdateItemInput {
  UpdateExpression : string;
  ExpressionAttributeValues : gmap string Value
}.

(** The loop [for _, expr := range exprs] of [SetUpdateExpression]: [m] is
    the value map, [ms] the clause strings per keyword (a missing key reads
    as [""]), [c] the counter. The copy [for k, v := range mr { m[k] = v }]
    is the union [mr ∪ m] ([range_assign_union]). *)
Fixpoint SetUpdateExpression_loop (exprs : list updateExpression)
    (m : gmap string Value) (ms : gmap string string) (c : N)
    : gmap string Value * gmap string string * N :=
  match exprs with
  | [] => (m, ms, c)
  | expr :: rest =>
      let '(s, mr, nc) := f expr c in
      let m' := mr ∪ m in
      let cur := default "" (ms !! op expr) in
      let ms' := if String.eqb cur "" then <[op expr := s]> ms
                 else <[op expr := cur ++ ", " ++ s]> ms in
      SetUpdateExpression_loop rest m' ms' nc
  end.

(** [for k, v := range ms { s += k + " " + v + " " }] over the entries of
    [ms] in the order [l]. *)
Definition render_groups (l : list (string * string)) : string :=
  foldl (fun s kv => s ++ kv.1 ++ " " ++ kv.2 ++ " ") "" l.

(** [func (d *update) SetUpdateExpression(exprs ...*updateExpression)]:
    the counter starts at [uint(100)]; the keyword groups are rendered in
    Go's map-iteration order (any order of the entries of [ms]); the
    marshalled value map is copied into [ExpressionAttributeValues]. *)
Definition SetUpdateExpression (exprs : list updateExpression)
    (d d' : UpdateItemInput) : Prop :=
  let '(m, ms, _) := SetUpdateExpression_loop exprs ∅ ∅ 100 in
  (exists l, l ≡ₚ map_to_list ms /\ UpdateExpression d' = render_groups l) /\
  range_assign m (ExpressionAttributeValues d) (ExpressionAttributeValues d').

(** The description of the result in terms of the clauses. Each clause is
    run with the counter returned by the previous one, from 100; it gives
    its keyword, its string and its value map. *)
Fixpoint clause_runs (exprs : list updateExpression) (c : N)
    : list (string * string * gmap string Value) :=
  match exprs with
  | [] => []
  | x :: xs => let '(s, mr, nc) := f x c in (op x, s, mr) :: clause_runs xs nc
  end.

(** The strings of the clauses with keyword [k], in order. *)
Definition op_strings (runs : list (string * string * gmap string Value)) (k : string)
    : list string :=
  map (fun r => r.1.2) (filter (fun r => r.1.1 = k) runs).

(** The group of keyword [k]: its clause strings joined by [", "]. *)
Definition group_of (runs : list (string * string * gmap string Value)) (k : string)
    : option string :=
  match op_strings runs k with
  | [] => None
  | ss => Some (join ", " ss)
  end.

(** The union of the clauses' value maps, later clauses winning. *)
Definition union_from (m : gmap string Value) (runs : list (string * string * gmap string Value))
    : gmap string Value :=
  foldl (fun acc r => r.2 ∪ acc) m runs.

(** The claim's reading of the final string: the groups ["KEYWORD clauses"]
    joined by a single space, in some order of the keywords. *)
Definition spaced_groups (l : list (string * string)) : string :=
  join " " (map (fun kv => kv.1 ++ " " ++ kv.2) l).

Definition extend_group (o : option string) (ss : list string) : option string :=
  match o, ss with
  | None, [] => None
  | None, _ => Some (join ", " ss)
  | Some v, _ => Some (join ", " (v :: ss))
  end.

End UpdateV3.

Lemma join_merge (sep v s : string) (ss : list string) :
  join sep ((v ++ sep ++ s) :: ss) = join sep (v :: s :: ss).
Proof. rewrite !join_cons. cbn [prefix_each]. by rewrite !string_app_assoc. Qed.

Lemma app_nonempty_l (v w : string) : v <> "" -> v ++ w <> "".
Proof. destruct v; [done|]. intros _. discriminate. Qed.

(** The loop of [SetUpdateExpression], as long as no clause string is
    empty: the value map is the union of the clauses' value maps, and the
    entry of each keyword is extended by that keyword's clause strings. *)
Lemma SetUpdateExpression_loop_spec (exprs : list UpdateV3.updateExpression)
    (m : gmap string Value) (ms : gmap string string) (c : N) :
  (forall k v, ms !! k = Some v -> v <> "") ->
  Forall (fun r => r.1.2 <> "") (UpdateV3.clause_runs exprs c) ->
  (UpdateV3.SetUpdateExpression_loop exprs m ms c).1.1
    = UpdateV3.union_from m (UpdateV3.clause_runs exprs c) /\
  forall k, (UpdateV3.SetUpdateExpression_loop exprs m ms c).1.2 !! k
    = UpdateV3.extend_group (ms !! k) (UpdateV3.op_strings (UpdateV3.clause_runs exprs c) k).
Proof.
  revert m ms c. induction exprs as [|a exprs IH]; intros m ms c Hms Hr.
  - split; [done|]. intros k. cbn. by destruct (ms !! k).
  - cbn [UpdateV3.SetUpdateExpression_loop UpdateV3.clause_runs] in *.
    destruct (UpdateV3.f a c) as [[s mr] nc] eqn:Hf.
    apply Forall_cons in Hr as [Hs Hr]. cbn in Hs.
    set (ms' := if String.eqb (default "" (ms !! UpdateV3.op a)) "" then _ else _).
    assert (Hms' : forall k, ms' !! k =
      if decide (k = UpdateV3.op a)
      then Some (match ms !! UpdateV3.op a with None => s | Some v => v ++ ", " ++ s end)
      else ms !! k).
    { intros k. subst ms'. destruct (ms !! UpdateV3.op a) as [v|] eqn:E; unfold default, id.
      - pose proof (Hms _ _ E) as Hv.
        destruct (String.eqb_spec v ""); [contradiction|]. cbv iota.
        destruct (decide (k = UpdateV3.op a)) as [->|Hne].
        + by rewrite lookup_insert_eq.
        + by rewrite lookup_insert_ne.
      - change (String.eqb "" "") with true. cbv iota.
        destruct (decide (k = UpdateV3.op a)) as [->|Hne].
        + by rewrite lookup_insert_eq.
        + by rewrite lookup_insert_ne. }
    destruct (IH (mr ∪ m) ms' nc) as [H1 H2]; [|exact Hr|].
    { intros k v. rewrite Hms'. destruct (decide (k = UpdateV3.op a)) as [->|Hne].
      - destruct (ms !! UpdateV3.op a) as [w|] eqn:E; intros [= <-]; [|done].
        apply app_nonempty_l. exact (Hms _ _ E).
      - apply Hms. }
    split; [exact H1|].
    intros k. rewrite H2, Hms'. unfold UpdateV3.op_strings at 2. rewrite filter_cons.
    destruct (decide (k = UpdateV3.op a)) as [->|Hne].
    + rewrite decide_True by reflexivity. cbn [map fst snd].
      destruct (ms !! UpdateV3.op a) as [v|]; cbn [UpdateV3.extend_group].
      * by rewrite join_merge.
      * reflexivity.
    + rewrite decide_False by (cbn; congruence). reflexivity.
Qed.

(** ** C5 *)

(** C5 (corrected; counterexample): a single [SET] clause. The groups are
    not joined by single spaces: every group is followed by a space, so
    the update expression ends in a space, and it is not the string that
    joining the groups with spaces gives for any order of the groups. *)
Lemma update_expression_trailing_space :
  let exprs := [UpdateV3.SetField (mkDynamoField "age") (VInt 30) false] in
  let d := UpdateV3.mkUpdateItemInput EmptyString ∅ in
  let d' := UpdateV3.mkUpdateItemInput "SET age = :30_100 " {[":30_100" := VInt 30]} in
  UpdateV3.SetUpdateExpression exprs d d' /\
  ~ (exists l, l ≡ₚ map_to_list (UpdateV3.SetUpdateExpression_loop exprs ∅ ∅ 100).1.2 /\
       UpdateV3.UpdateExpression d' = UpdateV3.spaced_groups l).
Proof.
  cbv zeta.
  assert (E : UpdateV3.SetUpdateExpression_loop
                [UpdateV3.SetField (mkDynamoField "age") (VInt 30) false] ∅ ∅ 100
              = ({[":30_100" := VInt 30]}, {["SET" := "age = :30_100"]}, 101%N))
    by (vm_compute; reflexivity).
  unfold UpdateV3.SetUpdateExpression. rewrite E. cbn [fst snd]. split.
  - split.
    + exists [("SET", "age = :30_100")]. split; [by rewrite map_to_list_singleton|reflexivity].
    + exists [(":30_100", VInt 30)]. split; [by rewrite map_to_list_singleton|reflexivity].
  - intros (l & Hl & Heq). rewrite map_to_list_singleton in Hl.
    apply Permutation_singleton_r in Hl. subst l.
    vm_compute in Heq. discriminate Heq.
Qed.

(** C5 (amended): as long as no clause string is empty, [SetUpdateExpression]
    runs the clauses in order, each with the counter returned by the
    previous one, starting from 100 ([clause_runs]); the clause strings of
    each keyword are joined by [", "] ([group_of]); the update expression
    is the concatenation of ["KEYWORD clauses "] over the keywords in
    Go's map-iteration order, so it ends in a space; and the value maps of
    all clauses are unioned, a later clause winning a shared key, into the
    request's attribute values, overwriting entries it already had. *)
Theorem update_expression_groups (exprs : list UpdateV3.updateExpression)
    (d d' : UpdateV3.UpdateItemInput) :
  Forall (fun r => r.1.2 <> "") (UpdateV3.clause_runs exprs 100) ->
  UpdateV3.SetUpdateExpression exprs d d' ->
  exists G : gmap string string,
    (forall k, G !! k = UpdateV3.group_of (UpdateV3.clause_runs exprs 100) k) /\
    (exists l, l ≡ₚ map_to_list G /\
       UpdateV3.UpdateExpression d' = UpdateV3.render_groups l) /\
    UpdateV3.ExpressionAttributeValues d'
      = UpdateV3.union_from ∅ (UpdateV3.clause_runs exprs 100)
        ∪ UpdateV3.ExpressionAttributeValues d.
Proof.
  intros Hne HR.
  destruct (SetUpdateExpression_loop_spec exprs ∅ ∅ 100) as [Hm Hms];
    [intros k v; by rewrite lookup_empty | exact Hne |].
  unfold UpdateV3.SetUpdateExpression in HR.
  remember (UpdateV3.SetUpdateExpression_loop exprs ∅ ∅ 100) as R eqn:E.
  destruct R as [[m ms] c']. cbn [fst snd] in Hm, Hms. destruct HR as [Hs Hv].
  exists ms. split; [|split; [exact Hs|]].
  - intros k. rewrite Hms, lookup_empty. unfold UpdateV3.group_of.
    by destruct (UpdateV3.op_strings _ k).
  - by rewrite (range_assign_union _ _ _ Hv), Hm.
Qed.

Lemma update_expression_groups_witness :
  let exprs := [UpdateV3.SetField (mkDynamoField "a") (VInt 1) false;
                UpdateV3.RemoveKey (mkDynamoField "m") "m.k";
                UpdateV3.SetField (mkDynamoField "b") (VInt 2) true] in
  let d := UpdateV3.mkUpdateItemInput EmptyString {[":x" := VInt 0]} in
  let r := UpdateV3.SetUpdateExpression_loop exprs ∅ ∅ 100 in
  let d' := UpdateV3.mkUpdateItemInput
              (UpdateV3.render_groups (map_to_list r.1.2))
              (r.1.1 ∪ UpdateV3.ExpressionAttributeValues d) in
  Forall (fun r => r.1.2 <> "") (UpdateV3.clause_runs exprs 100) /\
  UpdateV3.SetUpdateExpression exprs d d' /\
  exists G : gmap string string,
    (forall k, G !! k = UpdateV3.group_of (UpdateV3.clause_runs exprs 100) k) /\
    (exists l, l ≡ₚ map_to_list G /\
       UpdateV3.UpdateExpression d' = UpdateV3.render_groups l) /\
    UpdateV3.ExpressionAttributeValues d'
      = UpdateV3.union_from ∅ (UpdateV3.clause_runs exprs 100)
        ∪ UpdateV3.ExpressionAttributeValues d.
Proof.
  cbv zeta.
  assert (Hne : Forall (fun r => r.1.2 <> "")
    (UpdateV3.clause_runs
       [UpdateV3.SetField (mkDynamoField "a") (VInt 1) false;
        UpdateV3.RemoveKey (mkDynamoField "m") "m.k";
        UpdateV3.SetField (mkDynamoField "b") (VInt 2) true] 100)).
  { vm_compute. repeat constructor; discriminate. }
  assert (HR : UpdateV3.SetUpdateExpression
    [UpdateV3.SetField (mkDynamoField "a") (VInt 1) false;
     UpdateV3.RemoveKey (mkDynamoField "m") "m.k";
     UpdateV3.SetField (mkDynamoField "b") (VInt 2) true]
    (UpdateV3.mkUpdateItemInput EmptyString {[":x" := VInt 0]})
    (let r := UpdateV3.SetUpdateExpression_loop
                [UpdateV3.SetField (mkDynamoField "a") (VInt 1) false;
                 UpdateV3.RemoveKey (mkDynamoField "m") "m.k";
                 UpdateV3.SetField (mkDynamoField "b") (VInt 2) true] ∅ ∅ 100 in
     UpdateV3.mkUpdateItemInput
       (UpdateV3.render_groups (map_to_list r.1.2))
       (r.1.1 ∪ {[":x" := VInt 0]}))).
  { unfold UpdateV3.SetUpdateExpression. cbv zeta.
    destruct (UpdateV3.SetUpdateExpression_loop _ ∅ ∅ 100) as [[m ms] c'].
    split; [by exists (map_to_list ms) | apply range_assign_exists]. }
  split; [exact Hne|]. split; [exact HR|].
  exact (update_expression_groups _ _ _ Hne HR).
Defined.

(** ** Tables, fields and keys ([domino.go]) *)

Module Field.
(** [type dynamoField struct { name string; _type string; empty bool }];
    [Name()], [Type()] and [IsEmpty()] return the three fields. *)
Record dynamoField := mk { name : string; type_ : string; empty : bool }.
End Field.

(** [func EmptyField() Empty]: [empty: true, _type: dNULL]. *)
Definition EmptyField : Field.dynamoField := Field.mk "" "Null" true.
(** [func StringField(name string) String]: [_type: dS]. *)
Definition StringField (name : string) : Field.dynamoField := Field.mk name "S" false.
(** [func NumericField(name string) Numeric]: [_type: dN]. *)
Definition NumericField (name : string) : Field.dynamoField := Field.mk name "N" false.

Module LSI.
(** [type LocalSecondaryIndex struct]. *)
Record t := mk {
  Name : string;
  PartitionKey : Field.dynamoField;
  SortKey : Field.dynamoField;
  ProjectionType : string;
  NonKeyAttributes : list Field.dynamoField
}.
End LSI.

Module GSI.
(** [type GlobalSecondaryIndex struct]. *)
Record t := mk {
  Name : string;
  PartitionKey : Field.dynamoField;
  RangeKey : Field.dynamoField;
  ProjectionType : string;
  NonKeyAttributes : list Field.dynamoField;
  ReadUnits : Z;
  WriteUnits : Z
}.
End GSI.

Module Table.
(** [type DynamoTable struct]. *)
Record DynamoTable := mk {
  Name : string;
  PartitionKey : Field.dynamoField;
  RangeKey : Field.dynamoField;
  GlobalSecondaryIndexes : list GSI.t;
  LocalSecondaryIndexes : list LSI.t
}.
End Table.

Module KV.
(** [type KeyValue struct { PartitionKey interface{}; RangeKey interface{} }] *)
Record KeyValue := mk { PartitionKey : Value; RangeKey : Value }.
End KV.

(** [func appendKeyAttribute(m, table, key)]: [appendAttribute] of the
    partition key, then of the range key unless the table's range key is
    empty. [appendAttribute] does not fail on the values modelled here. *)
Definition appendKeyAttribute (m : gmap string Value) (table : Table.DynamoTable)
    (key : KV.KeyValue) : gmap string Value :=
  let m := appendAttribute m (Field.name (Table.PartitionKey table)) (KV.PartitionKey key) in
  if negb (Field.empty (Table.RangeKey table))
  then appendAttribute m (Field.name (Table.RangeKey table)) (KV.RangeKey key)
  else m.

(** [func appendKeyInterface(m *map[string]interface{}, table, key)]. *)
Definition appendKeyInterface (m : gmap string Value) (table : Table.DynamoTable)
    (key : KV.KeyValue) : gmap string Value :=
  let m := <[Field.name (Table.PartitionKey table) := KV.PartitionKey key]> m in
  if negb (Field.empty (Table.RangeKey table))
  then <[Field.name (Table.RangeKey table) := KV.RangeKey key]> m
  else m.

Module GetItemM.
(** The fields of [dynamodb.GetItemInput] that [GetItem] writes. *)
Record GetItemInput := mk { TableName : string; Key : gmap string Value }.
End GetItemM.

(** [func (table DynamoTable) GetItem(key KeyValue) *get]. *)
Definition GetItem (table : Table.DynamoTable) (key : KV.KeyValue) : GetItemM.GetItemInput :=
  let k := appendAttribute ∅ (Field.name (Table.PartitionKey table)) (KV.PartitionKey key) in
  let k := if negb (Field.empty (Table.RangeKey table))
           then appendAttribute k (Field.name (Table.RangeKey table)) (KV.RangeKey key)
           else k in
  GetItemM.mk (Table.Name table) k.

Module DeleteItemM.
(** The fields of [dynamodb.DeleteItemInput] that [deleteItem] writes. *)
Record DeleteItemInput := mk {
  TableName : string;
  Key : gmap string Value;
  ConditionExpression : option string;
  ExpressionAttributeValues : gmap string Value
}.
End DeleteItemM.

(** [func (table DynamoTable) DeleteItem(key KeyValue) *deleteItem]. *)
Definition DeleteItem (table : Table.DynamoTable) (key : KV.KeyValue) : DeleteItemM.DeleteItemInput :=
  DeleteItemM.mk (Table.Name table) (appendKeyAttribute ∅ table key) None ∅.

(** [func (d *deleteItem) SetConditionExpression(c Expression)]:
    [d.ExpressionAttributeValues, _ = dynamodbattribute.MarshalMap(m)]
    replaces the map (a nil [m] Forall2 (fun x y => MarshalMap x = Some y) to an empty map). *)
Definition DeleteItem_SetConditionExpression (d : DeleteItemM.DeleteItemInput) (c : Expression)
    : DeleteItemM.DeleteItemInput :=
  let '(s, _, m, _) := construct c 1 true in
  DeleteItemM.mk (DeleteItemM.TableName d) (DeleteItemM.Key d) (Some s) m.

Module PutItemM.
(** The fields of [dynamodb.PutItemInput] that [put] writes; [Item] is
    the marshalled item. *)
Record PutItemInput := mk {
  TableName : string;
  Item : gmap string Value;
  ConditionExpression : option string;
  ExpressionAttributeValues : gmap string Value
}.
End PutItemM.

(** [func (table DynamoTable) PutItem(i interface{}) *put], with the item
    given in its marshalled form. *)
Definition PutItem (table : Table.DynamoTable) (item : gmap string Value) : PutItemM.PutItemInput :=
  PutItemM.mk (Table.Name table) item None ∅.

(** [func (d *put) SetConditionExpression(c Expression) *put]. *)
Definition PutItem_SetConditionExpression (d : PutItemM.PutItemInput) (c : Expression)
    : PutItemM.PutItemInput :=
  let '(s, _, m, _) := construct c 1 true in
  PutItemM.mk (PutItemM.TableName d) (PutItemM.Item d) (Some s) m.

(** ** [BatchGetItem] ([domino.go]) *)

Module BatchGet.

(** [dynamodb.KeysAndAttributes] (its [Keys]). *)
Record KeysAndAttributes := mkKA { Keys : list (gmap string Value) }.

(** [dynamodb.BatchGetItemInput] (its [RequestItems] and
    [ReturnConsumedCapacity]). *)
Record BatchGetItemInput := mkInput {
  RequestItems : gmap string KeysAndAttributes;
  ReturnConsumedCapacity : option string
}.

(** The key map of one [KeyValue] in the delayed function of
    [BatchGetItem]; [MarshalMap] of it does not fail here. *)
Definition key_map (table : Table.DynamoTable) (kv : KV.KeyValue) : gmap string Value :=
  let m : gmap string Value := {[Field.name (Table.PartitionKey table) := KV.PartitionKey kv]} in
  if negb (Field.empty (Table.RangeKey table))
  then <[Field.name (Table.RangeKey table) := KV.RangeKey kv]> m
  else m.

(** The loop [for t, ka := range k]: [s] is the last map of [ss], filled
    while it has fewer than 100 tables, then replaced by a new map that is
    appended to [ss]; [prev] are the maps of [ss] before [s]. *)
Fixpoint table_loop (l : list (string * KeysAndAttributes)) (s : gmap string KeysAndAttributes)
    (prev : list (gmap string KeysAndAttributes)) : list (gmap string KeysAndAttributes) :=
  match l with
  | [] => prev ++ [s]
  | (t, ka) :: rest =>
      if Nat.ltb (size s) 100 then table_loop rest (<[t := ka]> s) prev
      else table_loop rest {[t := ka]} (prev ++ [s])
  end.

(** The delayed function of [BatchGetItem(items...)]: it appends one
    [BatchGetItemInput] per map of [ss] to the shared [*input]. The map
    [k] has the single key [table.Name], so Go's iteration order over it
    is unique. *)
Definition delayed (table : Table.DynamoTable) (items : list KV.KeyValue)
    (input : list BatchGetItemInput) : list BatchGetItemInput :=
  let keysAndAttribs := mkKA (map (key_map table) items) in
  let k : gmap string KeysAndAttributes := {[Table.Name table := keysAndAttribs]} in
  let ss := table_loop (map_to_list k) ∅ [] in
  input ++ map (fun m => mkInput m None) ss.

(** [type batchGet struct { input *[]*BatchGetItemInput; delayedFunctions }];
    a delayed function is given by the table and items it captured. *)
Record batchGet := mkBatchGet {
  input : list BatchGetItemInput;
  delayedFunctions : list (Table.DynamoTable * list KV.KeyValue)
}.

(** [func (table DynamoTable) BatchGetItem(items ...KeyValue) *batchGet]. *)
Definition BatchGetItem (table : Table.DynamoTable) (items : list KV.KeyValue) : batchGet :=
  mkBatchGet [] [(table, items)].

(** [func (d *batchGet) Build()]: runs the delayed functions, which append
    to [*d.input], then sets [ReturnConsumedCapacity] on every element.
    The elements are pointers shared with [d.input], so the state keeps
    the updated elements too. *)
Definition Build (d : batchGet) : batchGet * list BatchGetItemInput :=
  let inp := foldl (fun acc f => delayed f.1 f.2 acc) (input d) (delayedFunctions d) in
  let inp := map (fun i => mkInput (RequestItems i) (Some "INDEXES")) inp in
  (mkBatchGet inp (delayedFunctions d), inp).

End BatchGet.

(** ** [BatchWriteItem] ([domino.go]) *)

Module BatchWrite.

Section BatchWrite.

(** Items are Go [interface{}] values; [MarshalMap] turns one into an
    attribute map ([Attr]) or fails; [KeyItem] is a key map
    [map[string]interface{}] passed as an item by [DeleteItems]. *)
Context {Item Attr : Type}.
Variable MarshalMap : Item -> option Attr.
Variable KeyItem : gmap string Value -> Item.

(** [dynamodb.WriteRequest]: a put request or a delete request. *)
Inductive WriteRequest :=
| PutRequest (item : Attr)
| DeleteRequest (key : Attr).

(** [dynamodb.BatchWriteItemInput] (its [RequestItems]). *)
Record BatchWriteItemInput := mkInput {
  RequestItems : gmap string (list WriteRequest)
}.

Definition write_request (putOnly : bool) (dynamoItem : Attr) : WriteRequest :=
  if putOnly then PutRequest dynamoItem else DeleteRequest dynamoItem.

(** The inner loop [for len(items) > 0 && len(puts) < 25]: it takes the
    first item ([items = items[1:]] before marshalling it) and stops with
    an error if [MarshalMap] fails. The remaining items are returned in
    both cases: the closure's [items] variable keeps them. *)
Fixpoint fill (putOnly : bool) (items : list Item) (puts : list WriteRequest)
    : list Item * option (list WriteRequest) :=
  match items with
  | [] => (items, Some puts)
  | item :: rest =>
      if Nat.ltb (length puts) 25 then
        match MarshalMap item with
        | None => (rest, None)
        | Some dynamoItem => fill putOnly rest (puts ++ [write_request putOnly dynamoItem])
        end
      else (items, Some puts)
  end.

(** The outer loop [for i := 1; i <= batchCount; i++]: one batch per
    iteration, whose [RequestItems] maps the table name to its requests. *)
Fixpoint batch_loop (putOnly : bool) (n : nat) (tableName : string) (items : list Item)
    (batches : list BatchWriteItemInput) : list Item * option (list BatchWriteItemInput) :=
  match n with
  | O => (items, Some batches)
  | S n' =>
      let '(items', r) := fill putOnly items [] in
      match r with
      | None => (items', None)
      | Some puts =>
          batch_loop putOnly n' tableName items' (batches ++ [mkInput {[tableName := puts]}])
      end
  end.

(** One run of the delayed function of [writeItems(putOnly, items...)]
    with [batchCount := len(items)/25 + 1]: the closure's new [items] and
    the batches it appends to [d.batches], or an error. *)
Definition run_writeItems (tableName : string) (putOnly : bool) (items : list Item)
    : list Item * option (list BatchWriteItemInput) :=
  batch_loop putOnly (length items / 25 + 1) tableName items [].

(** [type batchPut struct { batches; table; delayedFunctions }]; a
    delayed function is given by its [putOnly] flag and its captured
    (and mutated) [items] variable. *)
Record batchPut := mkBatchPut {
  batches : list BatchWriteItemInput;
  table : Table.DynamoTable;
  delayedFunctions : list (bool * list Item)
}.

(** [func (table DynamoTable) BatchWriteItem() *batchPut]. *)
Definition BatchWriteItem (table : Table.DynamoTable) : batchPut :=
  mkBatchPut [] table [].

(** [func (d *batchPut) writeItems(putOnly bool, items ...interface{})]. *)
Definition writeItems (d : batchPut) (putOnly : bool) (items : list Item) : batchPut :=
  mkBatchPut (batches d) (table d) (delayedFunctions d ++ [(putOnly, items)]).

(** [func (d *batchPut) PutItems(items ...interface{})]. *)
Definition PutItems (d : batchPut) (items : list Item) : batchPut :=
  writeItems d true items.

(** [func (d *batchPut) DeleteItems(keys ...KeyValue)]: one key map per
    key, built by [appendKeyInterface] on a fresh map. *)
Definition DeleteItems (d : batchPut) (keys : list KV.KeyValue) : batchPut :=
  writeItems d false (map (fun key => KeyItem (appendKeyInterface ∅ (table d) key)) keys).

(** The loop [for _, function := range d.delayedFunctions] of [Build]:
    each function updates its captured [items] and appends to the
    batches; the loop stops at the first error. *)
Fixpoint run_delayed (tableName : string) (bs : list BatchWriteItemInput)
    (fs : list (bool * list Item))
    : list (bool * list Item) * list BatchWriteItemInput * bool :=
  match fs with
  | [] => ([], bs, true)
  | (putOnly, items) :: rest =>
      let '(items', r) := run_writeItems tableName putOnly items in
      match r with
      | None => ((putOnly, items') :: rest, bs, false)
      | Some new =>
          let '(rest', bs', ok) := run_delayed tableName (bs ++ new) rest in
          ((putOnly, items') :: rest', bs', ok)
      end
  end.

(** [func (d *batchPut) Build() (input []BatchWriteItemInput, err error)]:
    the new state of [d] and [Some d.batches], or [None] for an error. *)
Definition Build (d : batchPut) : batchPut * option (list BatchWriteItemInput) :=
  let '(fs, bs, ok) := run_delayed (Table.Name (table d)) (batches d) (delayedFunctions d) in
  (mkBatchPut bs (table d) fs, if ok then Some bs else None).

(** The requests of a batch for table [t]. *)
Definition requests (t : string) (b : BatchWriteItemInput) : list WriteRequest :=
  default [] (RequestItems b !! t).

End BatchWrite.

End BatchWrite.

(** ** [UpdateItem] and its [Build] ([domino.go]) *)

Module UpdateItemM.

(** The fields of [dynamodb.UpdateItemInput] that [update] writes. *)
Record UpdateItemInput := mk {
  TableName : string;
  Key : gmap string Value;
  ConditionExpression : option string;
  UpdateExpression : option string;
  ExpressionAttributeValues : gmap string Value
}.

(** [type update struct { input UpdateItemInput; delayedFunctions []func() error }];
    a delayed function updates [d.input] or fails. *)
Record update := mkUpdate {
  input : UpdateItemInput;
  delayedFunctions : list (UpdateItemInput -> option UpdateItemInput)
}.

(** [func (table DynamoTable) UpdateItem(key KeyValue) *update]. *)
Definition UpdateItem (table : Table.DynamoTable) (key : KV.KeyValue) : update :=
  mkUpdate (mk (Table.Name table) (appendKeyAttribute ∅ table key) None None ∅) [].

(** The delayed function of [SetConditionExpression(c)]: it sets
    [ConditionExpression] and copies the marshalled value map into
    [ExpressionAttributeValues] (any order gives the union,
    [range_assign_union]). *)
Definition condition_delayed (c : Expression) (inp : UpdateItemInput) : option UpdateItemInput :=
  let '(s, _, m, _) := construct c 1 true in
  Some (mk (TableName inp) (Key inp) (Some s) (UpdateExpression inp)
           (m ∪ ExpressionAttributeValues inp)).

(** [func (d *update) SetConditionExpression(c Expression) *update]:
    the work is delayed, appended to [d.delayedFunctions]. *)
Definition SetConditionExpression (d : update) (c : Expression) : update :=
  mkUpdate (input d) (delayedFunctions d ++ [condition_delayed c]).

(** [func (d *update) SetUpdateExpression(exprs ...*updateExpression)] on
    the whole [update]: the loop of [UpdateV3.SetUpdateExpression_loop],
    the groups in Go's map-iteration order, the value map copied into
    [d.input.ExpressionAttributeValues]. *)
Definition SetUpdateExpression (exprs : list UpdateV3.updateExpression) (d d' : update) : Prop :=
  let '(m, ms, _) := UpdateV3.SetUpdateExpression_loop exprs ∅ ∅ 100 in
  exists l eav,
    l ≡ₚ map_to_list ms /\
    range_assign m (ExpressionAttributeValues (input d)) eav /\
    d' = mkUpdate (mk (TableName (input d)) (Key (input d)) (ConditionExpression (input d))
                      (Some (UpdateV3.render_groups l)) eav)
                  (delayedFunctions d).

(** [func (d *update) Build() *dynamodb.UpdateItemInput]:
    [r := dynamodb.UpdateItemInput] of [d.input]. *)
Definition Build (d : update) : UpdateItemInput := input d.

(** The states an [update] reaches from [UpdateItem] through its setters. *)
Inductive built : update -> Prop :=
| built_UpdateItem table key : built (UpdateItem table key)
| built_SetConditionExpression d c : built d -> built (SetConditionExpression d c)
| built_SetUpdateExpression d exprs d' :
    built d -> SetUpdateExpression exprs d d' -> built d'.

End UpdateItemM.

(** ** [SetLimit], [SetPageSize] and [Build] of [query] and [scan] *)

Module QueryLimit.
(** [dynamodb.QueryInput] (its [Limit]). *)
Record QueryInput := mkInput { Limit : option Z }.
(** [type query struct { *dynamodb.QueryInput; pageSize *int64; ... }]. *)
Record query := mk { QueryInput_ : QueryInput; pageSize : option Z }.
(** [func (d *query) SetLimit(limit int) *query]: [d.Limit = &s]. *)
Definition SetLimit (d : query) (limit : Z) : query := mk (mkInput (Some limit)) (pageSize d).
(** [func (d *query) SetPageSize(pageSize int) *query]. *)
Definition SetPageSize (d : query) (ps : Z) : query := mk (QueryInput_ d) (Some ps).
(** [func (d *query) Build() *dynamodb.QueryInput]. *)
Definition Build (d : query) : QueryInput :=
  match pageSize d with
  | Some ps => mkInput (Some ps)
  | None => QueryInput_ d
  end.
End QueryLimit.

Module ScanLimit.
(** [dynamodb.ScanInput] (its [Limit]). *)
Record ScanInput := mkInput { Limit : option Z }.
(** [type scan struct { *dynamodb.ScanInput; pageSize *int64 }]. *)
Record scan := mk { ScanInput_ : ScanInput; pageSize : option Z }.
(** [func (d *scan) SetLimit(limit int) *scan]. *)
Definition SetLimit (d : scan) (limit : Z) : scan := mk (mkInput (Some limit)) (pageSize d).
(** [func (d *scan) SetPageSize(pageSize int) *scan]. *)
Definition SetPageSize (d : scan) (ps : Z) : scan := mk (ScanInput_ d) (Some ps).
(** [func (d *scan) Build() *dynamodb.ScanInput]. *)
Definition Build (d : scan) : ScanInput :=
  match pageSize d with
  | Some ps => mkInput (Some ps)
  | None => ScanInput_ d
  end.
End ScanLimit.

(** ** [CreateTable] ([domino.go]) *)

Module KSE.
(** [dynamodb.KeySchemaElement]. *)
Record t := mk { AttributeName : string; KeyType : string }.
End KSE.

Module AD.
(** [dynamodb.AttributeDefinition]. *)
Record t := mk { AttributeName : string; AttributeType : string }.
End AD.

Module Projection.
(** [dynamodb.Projection]. *)
Record t := mk { ProjectionType : string; NonKeyAttributes : list string }.
End Projection.

Module GSIOut.
(** [dynamodb.GlobalSecondaryIndex]. *)
Record t := mk {
  IndexName : string;
  KeySchema : list KSE.t;
  Projection : Projection.t;
  ReadCapacityUnits : Z;
  WriteCapacityUnits : Z
}.
End GSIOut.

Module LSIOut.
(** [dynamodb.LocalSecondaryIndex]. *)
Record t := mk { IndexName : string; KeySchema : list KSE.t; Projection : Projection.t }.
End LSIOut.

Module CT.
(** The fields of [dynamodb.CreateTableInput] that [createTable] writes;
    the provisioned throughput is given by its two units. *)
Record CreateTableInput := mk {
  TableName : string;
  KeySchema : list KSE.t;
  ReadCapacityUnits : Z;
  WriteCapacityUnits : Z;
  AttributeDefinitions : list AD.t;
  GlobalSecondaryIndexes : list GSIOut.t;
  LocalSecondaryIndexes : list LSIOut.t
}.
End CT.

Definition field_definition (f : Field.dynamoField) : AD.t :=
  AD.mk (Field.name f) (Field.type_ f).

(** The projection part shared by [WithLocalSecondaryIndex] and
    [WithGlobalSecondaryIndex]: the projection type ([ALL] when empty),
    the attribute definitions the [INCLUDE] loop appends, and [nka]. *)
Definition projection_parts (projectionType : string) (nonKey : list Field.dynamoField)
    : string * list AD.t * list string :=
  if String.eqb projectionType "" then ("ALL", [], [])
  else if String.eqb projectionType "INCLUDE"
  then (projectionType, map field_definition nonKey, map Field.name nonKey)
  else (projectionType, [], []).

(** [func (d *createTable) WithGlobalSecondaryIndex(gsi GlobalSecondaryIndex)]. *)
Definition WithGlobalSecondaryIndex (d : CT.CreateTableInput) (gsi : GSI.t) : CT.CreateTableInput :=
  let '(pt, defs, nka) := projection_parts (GSI.ProjectionType gsi) (GSI.NonKeyAttributes gsi) in
  let gsir := if Z.eqb (GSI.ReadUnits gsi) 0 then 10%Z else GSI.ReadUnits gsi in
  let gsiw := if Z.eqb (GSI.WriteUnits gsi) 0 then 10%Z else GSI.WriteUnits gsi in
  let pk := field_definition (GSI.PartitionKey gsi) in
  let rk := field_definition (GSI.RangeKey gsi) in
  let dynamoGsi := GSIOut.mk (GSI.Name gsi)
    [KSE.mk (Field.name (GSI.PartitionKey gsi)) "HASH";
     KSE.mk (Field.name (GSI.RangeKey gsi)) "RANGE"]
    (Projection.mk pt nka) gsir gsiw in
  CT.mk (CT.TableName d) (CT.KeySchema d) (CT.ReadCapacityUnits d) (CT.WriteCapacityUnits d)
    (CT.AttributeDefinitions d ++ defs ++ [pk; rk])%list
    (CT.GlobalSecondaryIndexes d ++ [dynamoGsi])%list (CT.LocalSecondaryIndexes d).

(** [func (d *createTable) WithLocalSecondaryIndex(lsi LocalSecondaryIndex)]. *)
Definition WithLocalSecondaryIndex (d : CT.CreateTableInput) (lsi : LSI.t) : CT.CreateTableInput :=
  let '(pt, defs, nka) := projection_parts (LSI.ProjectionType lsi) (LSI.NonKeyAttributes lsi) in
  let pk := field_definition (LSI.PartitionKey lsi) in
  let rk := field_definition (LSI.SortKey lsi) in
  let dynamoLsi := LSIOut.mk (LSI.Name lsi)
    [KSE.mk (Field.name (LSI.PartitionKey lsi)) "HASH";
     KSE.mk (Field.name (LSI.SortKey lsi)) "RANGE"]
    (Projection.mk pt nka) in
  CT.mk (CT.TableName d) (CT.KeySchema d) (CT.ReadCapacityUnits d) (CT.WriteCapacityUnits d)
    (CT.AttributeDefinitions d ++ defs ++ [pk; rk])%list
    (CT.GlobalSecondaryIndexes d) (CT.LocalSecondaryIndexes d ++ [dynamoLsi])%list.

(** [func (table DynamoTable) CreateTable() *createTable]: the table's
    keys and throughput 100/100, then the global secondary indexes, then
    the local ones. *)
Definition CreateTable (table : Table.DynamoTable) : CT.CreateTableInput :=
  let pk := Table.PartitionKey table in
  let rk := Table.RangeKey table in
  let k := [KSE.mk (Field.name pk) "HASH"] in
  let a := [field_definition pk] in
  let '(k, a) := if negb (Field.empty rk)
                 then ((k ++ [KSE.mk (Field.name rk) "RANGE"])%list, (a ++ [field_definition rk])%list)
                 else (k, a) in
  let c := CT.mk (Table.Name table) k 100 100 a [] [] in
  let c := foldl WithGlobalSecondaryIndex c (Table.GlobalSecondaryIndexes table) in
  foldl WithLocalSecondaryIndex c (Table.LocalSecondaryIndexes table).

(** ** Auxiliary definitions for the proofs *)

(** The [i]-th group of 25 of a list. *)
Definition chunk25 {A : Type} (l : list A) (i : nat) : list A := take 25 (drop (25 * i) l).

(** The number of attribute definitions the [INCLUDE] loop of
    [WithGlobalSecondaryIndex] and [WithLocalSecondaryIndex] appends. *)
Definition include_count (projectionType : string) (nonKey : list Field.dynamoField) : nat :=
  if String.eqb projectionType "INCLUDE" then length nonKey else 0.

(** The [dynamodb.GlobalSecondaryIndex] built for [gsi]. *)
Definition gsi_built (gsi : GSI.t) (o : GSIOut.t) : Prop :=
  GSIOut.IndexName o = GSI.Name gsi /\
  GSIOut.KeySchema o = [KSE.mk (Field.name (GSI.PartitionKey gsi)) "HASH";
                        KSE.mk (Field.name (GSI.RangeKey gsi)) "RANGE"] /\
  Projection.ProjectionType (GSIOut.Projection o)
    = (if String.eqb (GSI.ProjectionType gsi) "" then "ALL" else GSI.ProjectionType gsi) /\
  Projection.NonKeyAttributes (GSIOut.Projection o)
    = (if String.eqb (GSI.ProjectionType gsi) "INCLUDE"
       then map Field.name (GSI.NonKeyAttributes gsi) else []) /\
  GSIOut.ReadCapacityUnits o = (if Z.eqb (GSI.ReadUnits gsi) 0 then 10%Z else GSI.ReadUnits gsi) /\
  GSIOut.WriteCapacityUnits o = (if Z.eqb (GSI.WriteUnits gsi) 0 then 10%Z else GSI.WriteUnits gsi).

(** The [dynamodb.LocalSecondaryIndex] built for [lsi]. *)
Definition lsi_built (lsi : LSI.t) (o : LSIOut.t) : Prop :=
  LSIOut.IndexName o = LSI.Name lsi /\
  LSIOut.KeySchema o = [KSE.mk (Field.name (LSI.PartitionKey lsi)) "HASH";
                        KSE.mk (Field.name (LSI.SortKey lsi)) "RANGE"] /\
  Projection.ProjectionType (LSIOut.Projection o)
    = (if String.eqb (LSI.ProjectionType lsi) "" then "ALL" else LSI.ProjectionType lsi) /\
  Projection.NonKeyAttributes (LSIOut.Projection o)
    = (if String.eqb (LSI.ProjectionType lsi) "INCLUDE"
       then map Field.name (LSI.NonKeyAttributes lsi) else []).

(** The update clauses of [expression.go] that [SetUpdateExpression]
    takes: [SetField], [Append] (of [dynamoCollectionField]), [RemoveKey]
    and [RemoveElemIndex]. *)
Inductive UpdateClause :=
| USetField (field : DynamoField) (a : Value) (onlyIfEmpty : bool)
| UAppend (field : DynamoField) (a : Value)
| URemoveKey (field : DynamoField) (s : string)
| URemoveElemIndex (field : DynamoField) (idx : N).

Definition clause_expr (F : GoFmt) (u : UpdateClause) : UpdateV3.updateExpression :=
  match u with
  | USetField field a onlyIfEmpty => UpdateV3.SetField field a onlyIfEmpty
  | UAppend field a => UpdateV3.Append F field a
  | URemoveKey field s => UpdateV3.RemoveKey field s
  | URemoveElemIndex field idx => UpdateV3.RemoveElemIndex field idx
  end.

(** The entry a clause run with counter [c] puts in the value map. *)
Definition clause_entry (u : UpdateClause) (c : N) : option (string * Value) :=
  match u with
  | USetField _ a _ => Some (generatePlaceholder a c, a)
  | UAppend _ a => Some (generatePlaceholder a c, VList [a])
  | _ => None
  end.

(** ** Properties of the request builders *)

(** [GetItem], [DeleteItem], [appendKeyInterface] (used by
    [DeleteItems]) and the key maps of [BatchGetItem] build the same key
    map: the partition key value under the partition key's name and,
    unless the table's range key is empty, the range key value under the
    range key's name. *)
Theorem item_key_maps (table : Table.DynamoTable) (key : KV.KeyValue) :
  let k := GetItemM.Key (GetItem table key) in
  k = DeleteItemM.Key (DeleteItem table key) /\
  k = appendKeyInterface ∅ table key /\
  k = BatchGet.key_map table key /\
  (Field.empty (Table.RangeKey table) = true ->
     k = {[Field.name (Table.PartitionKey table) := KV.PartitionKey key]}) /\
  (Field.empty (Table.RangeKey table) = false ->
   Field.name (Table.RangeKey table) <> Field.name (Table.PartitionKey table) ->
     k !! Field.name (Table.PartitionKey table) = Some (KV.PartitionKey key) /\
     k !! Field.name (Table.RangeKey table) = Some (KV.RangeKey key) /\
     size k = 2%nat).
Proof.
  cbv zeta. unfold GetItem, DeleteItem, appendKeyAttribute, appendKeyInterface,
    BatchGet.key_map, appendAttribute. cbn [GetItemM.Key DeleteItemM.Key].
  destruct (Field.empty (Table.RangeKey table)); cbn [negb].
  - do 3 (split; [reflexivity|]). split; [reflexivity|]. discriminate.
  - do 3 (split; [reflexivity|]). split; [discriminate|]. intros _ Hne.
    split; [by rewrite lookup_insert_ne, lookup_insert_eq|].
    split; [by rewrite lookup_insert_eq|].
    rewrite map_size_insert_None; [by rewrite map_size_insert_None, map_size_empty|].
    by rewrite lookup_insert_ne, lookup_empty.
Qed.

(** [BatchGetItem(items...)] builds exactly one [BatchGetItemInput],
    whose request for the table holds the key maps of all the items in
    order, however many items there are: the split at 100 applies to the
    number of tables, and there is only one. *)
Theorem batch_get_single_request (table : Table.DynamoTable) (items : list KV.KeyValue) :
  (BatchGet.Build (BatchGet.BatchGetItem table items)).2 =
  [BatchGet.mkInput
     {[Table.Name table := BatchGet.mkKA (map (BatchGet.key_map table) items)]}
     (Some "INDEXES")].
Proof.
  unfold BatchGet.Build, BatchGet.BatchGetItem, BatchGet.delayed. cbn.
  rewrite map_to_list_singleton. reflexivity.
Qed.

(** The delayed function of [BatchGetItem] appends to the shared input
    every time it runs: a second [Build] on the same [batchGet] returns
    the requests of the first one twice. *)
Theorem batch_get_build_twice (table : Table.DynamoTable) (items : list KV.KeyValue) :
  let '(d1, r1) := BatchGet.Build (BatchGet.BatchGetItem table items) in
  (BatchGet.Build d1).2 = (r1 ++ r1)%list.
Proof.
  unfold BatchGet.Build, BatchGet.BatchGetItem, BatchGet.delayed. cbn.
  rewrite map_to_list_singleton. reflexivity.
Qed.

(** On [put] and [deleteItem], [SetConditionExpression] replaces the
    attribute values with the condition's value map: a second call
    discards everything the first one set, and the item or key is left
    as it was. *)
Theorem put_delete_condition_replaces (p : PutItemM.PutItemInput) (d : DeleteItemM.DeleteItemInput)
    (c1 c2 : Expression) :
  PutItem_SetConditionExpression (PutItem_SetConditionExpression p c1) c2
    = PutItem_SetConditionExpression p c2 /\
  PutItemM.ExpressionAttributeValues (PutItem_SetConditionExpression p c2)
    = res_values (construct c2 1 true) /\
  PutItemM.ConditionExpression (PutItem_SetConditionExpression p c2)
    = Some (res_expr (construct c2 1 true)) /\
  PutItemM.Item (PutItem_SetConditionExpression p c2) = PutItemM.Item p /\
  DeleteItem_SetConditionExpression (DeleteItem_SetConditionExpression d c1) c2
    = DeleteItem_SetConditionExpression d c2 /\
  DeleteItemM.ExpressionAttributeValues (DeleteItem_SetConditionExpression d c2)
    = res_values (construct c2 1 true) /\
  DeleteItemM.ConditionExpression (DeleteItem_SetConditionExpression d c2)
    = Some (res_expr (construct c2 1 true)) /\
  DeleteItemM.Key (DeleteItem_SetConditionExpression d c2) = DeleteItemM.Key d.
Proof.
  unfold PutItem_SetConditionExpression, DeleteItem_SetConditionExpression.
  destruct (construct c1 1 true) as [[[s1 n1] m1] k1].
  destruct (construct c2 1 true) as [[[s2 n2] m2] k2].
  repeat split.
Qed.

(** [construct] never fills the attribute-name map: for every tree and
    every [uint] counter the returned [ExpressionAttributeNames] map is
    empty, so no expression of the DSL refers to a name placeholder. *)
Theorem construct_no_attribute_names (e : Expression) (c : N) (tl : bool) :
  (c < uint_modulus)%N -> res_names (construct e c tl) = ∅.
Proof. intros Hc. exact (proj1 (construct_spec e c tl Hc)). Qed.

Lemma construct_no_attribute_names_witness :
  (0 < uint_modulus)%N /\
  res_names (construct (Not (Or [Equals (mkDynamoField "a") (VInt 1);
                                 Exists (mkDynamoField "b")])) 0 true) = ∅.
Proof.
  split; [unfold uint_modulus; lia|].
  apply construct_no_attribute_names. unfold uint_modulus; lia.
Defined.

(** Without a range key condition, a key condition with one argument
    takes the placeholder of counter 0, and a filter constructed from
    counter 1 never produces that placeholder (as long as it has fewer
    than [2^64 - 1] arguments): [SetFilterExpression] keeps the key
    value, and the request's values are the filter's values plus the key
    placeholder. *)
Theorem query_single_key_filter_disjoint (p f : Expression) (a : Value) :
  leaf_args p = [a] ->
  (N.of_nat (length (leaf_args f)) < uint_modulus - 1)%N ->
  let q := SetFilterExpression (Query p None) f in
  res_values (construct f 1 true) !! generatePlaceholder a 0 = None /\
  ExpressionAttributeValues q
    = res_values (construct f 1 true) ∪ {[generatePlaceholder a 0 := a]} /\
  ExpressionAttributeValues q !! generatePlaceholder a 0 = Some a.
Proof.
  intros Hp Hf. cbv zeta.
  assert (HW : (1 < uint_modulus)%N) by (unfold uint_modulus; lia).
  assert (Hq : res_values (construct p 0 true) = {[generatePlaceholder a 0 := a]}).
  { rewrite (proj1 (proj2 (construct_spec p 0 true ltac:(lia)))), Hp. reflexivity. }
  assert (Hnone : res_values (construct f 1 true) !! generatePlaceholder a 0 = None).
  { rewrite (proj1 (proj2 (construct_spec f 1 true HW))).
    rewrite insert_all_notin by (rewrite ph_list_imap by exact HW;
      intros Hin; apply elem_of_lookup_imap in Hin as (i & b & Heq & Hi);
      apply generatePlaceholder_counter_inj in Heq;
      apply lookup_lt_Some in Hi;
      rewrite N.mod_small in Heq by lia; lia).
    apply lookup_empty. }
  unfold SetFilterExpression, Query.
  destruct (construct p 0 true) as [[[s0 n0] m0] k0] eqn:E0.
  cbn in Hq. subst m0.
  destruct (construct f 1 true) as [[[s1 n1] m1] k1] eqn:E1. cbn in Hnone |- *.
  rewrite map_union_empty. split; [exact Hnone|]. split; [reflexivity|].
  rewrite lookup_union_r by exact Hnone. apply lookup_singleton_eq.
Qed.

Lemma query_single_key_filter_disjoint_witness :
  let p := Equals (mkDynamoField "email") (VStr "a") in
  let f := And [Equals (mkDynamoField "password") (VStr "p-w"); Exists (mkDynamoField "x")] in
  leaf_args p = [VStr "a"] /\
  (N.of_nat (length (leaf_args f)) < uint_modulus - 1)%N /\
  let q := SetFilterExpression (Query p None) f in
  res_values (construct f 1 true) !! generatePlaceholder (VStr "a") 0 = None /\
  ExpressionAttributeValues q
    = res_values (construct f 1 true) ∪ {[generatePlaceholder (VStr "a") 0 := VStr "a"]} /\
  ExpressionAttributeValues q !! generatePlaceholder (VStr "a") 0 = Some (VStr "a").
Proof.
  cbv zeta. split; [reflexivity|]. split; [vm_compute; reflexivity|].
  apply query_single_key_filter_disjoint; [reflexivity | vm_compute; reflexivity].
Defined.

(** [SetPageSize] overrides [SetLimit]: once a page size is set, the
    [Limit] of the built [QueryInput] or [ScanInput] is the page size,
    whichever of the two setters was called last; without a page size it
    is the limit. *)
Theorem page_size_overrides_limit (q : QueryLimit.query) (s : ScanLimit.scan) (l p : Z) :
  QueryLimit.Limit (QueryLimit.Build (QueryLimit.SetPageSize (QueryLimit.SetLimit q l) p)) = Some p /\
  QueryLimit.Limit (QueryLimit.Build (QueryLimit.SetLimit (QueryLimit.SetPageSize q p) l)) = Some p /\
  (QueryLimit.pageSize q = None ->
     QueryLimit.Limit (QueryLimit.Build (QueryLimit.SetLimit q l)) = Some l) /\
  ScanLimit.Limit (ScanLimit.Build (ScanLimit.SetPageSize (ScanLimit.SetLimit s l) p)) = Some p /\
  ScanLimit.Limit (ScanLimit.Build (ScanLimit.SetLimit (ScanLimit.SetPageSize s p) l)) = Some p /\
  (ScanLimit.pageSize s = None ->
     ScanLimit.Limit (ScanLimit.Build (ScanLimit.SetLimit s l)) = Some l).
Proof.
  unfold QueryLimit.Build, QueryLimit.SetPageSize, QueryLimit.SetLimit,
    ScanLimit.Build, ScanLimit.SetPageSize, ScanLimit.SetLimit; cbn.
  repeat split; intros H; by rewrite H.
Qed.

(** [update.Build] returns [d.input] without running the delayed
    functions, so the condition given to [update.SetConditionExpression]
    never reaches the built [UpdateItemInput]: [SetConditionExpression]
    does not change what [Build] returns, and every [update] built from
    [UpdateItem] with the setters has no condition expression. *)
Theorem update_condition_never_built :
  (forall d c, UpdateItemM.Build (UpdateItemM.SetConditionExpression d c) = UpdateItemM.Build d) /\
  (forall d, UpdateItemM.built d ->
     UpdateItemM.ConditionExpression (UpdateItemM.Build d) = None).
Proof.
  split; [reflexivity|].
  intros d H. induction H as [table key | d c _ IH | d exprs d' _ IH HS].
  - reflexivity.
  - exact IH.
  - unfold UpdateItemM.SetUpdateExpression in HS.
    destruct (UpdateV3.SetUpdateExpression_loop exprs ∅ ∅ 100) as [[m ms] c'].
    destruct HS as (l & eav & _ & _ & ->). exact IH.
Qed.

(** *** Batches of [BatchWriteItem] *)

Section BatchWriteProofs.
Context {Item Attr : Type}.
Variable MarshalMap : Item -> option Attr.


Lemma fill_take (putOnly : bool) (l rest : list Item) (ds : list Attr) (puts : list (BatchWrite.WriteRequest (Attr:=Attr))) :
  Forall2 (fun x y => MarshalMap x = Some y) l ds ->
  (length puts + length l <= 25)%nat ->
  (rest = [] \/ (length puts + length l = 25)%nat) ->
  BatchWrite.fill MarshalMap putOnly (l ++ rest) puts
    = (rest, Some (puts ++ map (BatchWrite.write_request putOnly) ds)%list).
Proof.
  intros Hl. revert puts. induction Hl as [|x d l ds Hx Hl IH]; intros puts Hlen Hrest.
  - rewrite app_nil_r. cbn [app map]. destruct Hrest as [->|Hfull]; [reflexivity|].
    destruct rest as [|r rest]; [reflexivity|]. cbn [BatchWrite.fill].
    replace (Nat.ltb (length puts) 25) with false by (symmetry; apply Nat.ltb_ge; cbn in Hfull; lia).
    reflexivity.
  - cbn [app length] in *. cbn [BatchWrite.fill].
    replace (Nat.ltb (length puts) 25) with true by (symmetry; apply Nat.ltb_lt; lia).
    rewrite Hx, IH; [| rewrite length_app; cbn; lia
                     | destruct Hrest as [?|?]; [by left | right; rewrite length_app; cbn; lia]].
    by rewrite <- app_assoc.
Qed.

Lemma fill_fail (putOnly : bool) (pre post : list Item) (dpre : list Attr) (bad : Item)
    (puts : list (BatchWrite.WriteRequest (Attr:=Attr))) :
  Forall2 (fun x y => MarshalMap x = Some y) pre dpre -> MarshalMap bad = None ->
  (length puts + length pre < 25)%nat ->
  BatchWrite.fill MarshalMap putOnly (pre ++ bad :: post) puts = (post, None).
Proof.
  intros Hpre Hbad. revert puts. induction Hpre as [|x d l ds Hx Hl IH]; intros puts Hlen.
  - cbn [app BatchWrite.fill]. replace (Nat.ltb (length puts) 25) with true by (symmetry; apply Nat.ltb_lt; cbn in Hlen; lia).
    by rewrite Hbad.
  - cbn [app length BatchWrite.fill] in *.
    replace (Nat.ltb (length puts) 25) with true by (symmetry; apply Nat.ltb_lt; lia).
    rewrite Hx. apply IH. rewrite length_app. cbn. lia.
Qed.

Lemma batch_loop_ok (putOnly : bool) (n : nat) (t : string) (items : list Item) (ds : list Attr) acc :
  Forall2 (fun x y => MarshalMap x = Some y) items ds -> (length items <= 25 * n)%nat ->
  BatchWrite.batch_loop MarshalMap putOnly n t items acc
    = ([], Some (acc ++ map (fun i => BatchWrite.mkInput
                   {[t := map (BatchWrite.write_request putOnly) (chunk25 ds i)]}) (seq 0 n))%list).
Proof.
  revert items ds acc. induction n as [|n IH]; intros items ds acc Hm Hlen.
  - destruct items; [|cbn in Hlen; lia]. cbn. by rewrite app_nil_r.
  - cbn [BatchWrite.batch_loop].
    rewrite <- (take_drop 25 items).
    pose proof (Forall2_length _ _ _ Hm) as Hds.
    rewrite fill_take with (ds := take 25 ds).
    2: by apply Forall2_take.
    2: rewrite length_take; cbn [length]; lia.
    2: { destruct (Nat.le_gt_cases (length items) 25) as [Hle|Hgt].
         - left. apply drop_ge. exact Hle.
         - right. rewrite length_take. cbn [length]. lia. }
    rewrite (IH _ (drop 25 ds)).
    2: by apply Forall2_drop.
    2: rewrite length_drop; lia.
    cbn [seq map]. rewrite <- seq_shift, map_map. rewrite <- app_assoc. cbn [app].
    do 3 f_equal. try f_equal.
    apply map_ext. intros i. unfold chunk25. rewrite drop_drop. do 5 f_equal. lia.
Qed.

Lemma batch_loop_fail (putOnly : bool) (n : nat) (t : string) (pre post : list Item)
    (dpre : list Attr) (bad : Item) acc :
  Forall2 (fun x y => MarshalMap x = Some y) pre dpre -> MarshalMap bad = None -> (length pre < 25 * n)%nat ->
  BatchWrite.batch_loop MarshalMap putOnly n t (pre ++ bad :: post) acc = (post, None).
Proof.
  intros Hm Hbad. revert pre dpre acc Hm. induction n as [|n IH]; intros pre dpre acc Hm Hlen.
  - lia.
  - cbn [BatchWrite.batch_loop].
    destruct (Nat.lt_ge_cases (length pre) 25) as [Hlt|Hge].
    + by rewrite (fill_fail _ _ _ dpre).
    + rewrite <- (take_drop 25 pre), <- app_assoc.
      rewrite fill_take with (ds := take 25 dpre).
      2: by apply Forall2_take.
      2, 3: rewrite length_take; cbn [length]; lia.
      apply (IH _ (drop 25 dpre)); [by apply Forall2_drop | rewrite length_drop; lia].
Qed.

Lemma chunk25_concat {A : Type} (l : list A) (n : nat) :
  concat (map (chunk25 l) (seq 0 n)) = take (25 * n) l.
Proof.
  revert l. induction n as [|n IH]; intros l; [by rewrite Nat.mul_0_r, take_0|].
  cbn [seq map concat]. rewrite <- seq_shift, map_map.
  transitivity (chunk25 l 0 ++ concat (map (chunk25 (drop 25 l)) (seq 0 n)))%list.
  { f_equal. f_equal. apply map_ext. intros i. unfold chunk25. rewrite drop_drop. do 2 f_equal. lia. }
  rewrite IH. unfold chunk25. rewrite Nat.mul_0_r, drop_0, take_take_drop. f_equal. lia.
Qed.

Lemma run_writeItems_ok (t : string) (putOnly : bool) (items : list Item) (ds : list Attr) :
  Forall2 (fun x y => MarshalMap x = Some y) items ds ->
  BatchWrite.run_writeItems MarshalMap t putOnly items
    = ([], Some (map (fun i => BatchWrite.mkInput
                   {[t := map (BatchWrite.write_request putOnly) (chunk25 ds i)]})
                   (seq 0 (length items / 25 + 1)))).
Proof.
  intros Hm. unfold BatchWrite.run_writeItems. rewrite (batch_loop_ok _ _ _ _ ds); [reflexivity|exact Hm|].
  pose proof (Nat.div_mod (length items) 25 ltac:(lia)).
  pose proof (Nat.mod_upper_bound (length items) 25 ltac:(lia)). lia.
Qed.

End BatchWriteProofs.

(** [PutItems(items...)] followed by [Build], when every item marshals:
    the batch [i] holds the put requests of the items [25i] to [25i+24],
    there are [len(items)/25 + 1] batches, each maps only the table name
    to its requests, together they hold every item once and in order, and
    the last batch is empty when the number of items is a multiple of 25
    (in particular, no items give one empty batch). *)
Theorem batch_write_chunks {Item Attr : Type} (MarshalMap : Item -> option Attr)
    (table : Table.DynamoTable) (items : list Item) (ds : list Attr) :
  Forall2 (fun x y => MarshalMap x = Some y) items ds ->
  let t := Table.Name table in
  exists bs,
    (BatchWrite.Build MarshalMap (BatchWrite.PutItems (BatchWrite.BatchWriteItem table) items)).2 = Some bs /\
    bs = map (fun i => BatchWrite.mkInput {[t := map BatchWrite.PutRequest (take 25 (drop (25 * i) ds))]})
             (seq 0 (length items / 25 + 1)) /\
    concat (map (BatchWrite.requests t) bs) = map BatchWrite.PutRequest ds /\
    (Forall (fun b => length (BatchWrite.requests t b) <= 25)%nat bs) /\
    (length items mod 25 = 0 -> last bs = Some (BatchWrite.mkInput {[t := []]})).
Proof.
  intros Hm t.
  pose proof (Forall2_length _ _ _ Hm) as Hlen.
  unfold BatchWrite.Build, BatchWrite.PutItems, BatchWrite.writeItems, BatchWrite.BatchWriteItem.
  cbn [BatchWrite.table BatchWrite.batches BatchWrite.delayedFunctions app BatchWrite.run_delayed].
  rewrite (run_writeItems_ok _ _ _ _ ds Hm). cbn [app].
  eexists. split; [reflexivity|]. split; [reflexivity|].
  assert (Hreq : forall i, BatchWrite.requests t (BatchWrite.mkInput
            {[t := map (BatchWrite.write_request true) (chunk25 ds i)]})
          = map BatchWrite.PutRequest (chunk25 ds i)).
  { intros i. unfold BatchWrite.requests. cbn. rewrite lookup_singleton_eq. reflexivity. }
  pose proof (Nat.div_mod (length items) 25 ltac:(lia)).
  pose proof (Nat.mod_upper_bound (length items) 25 ltac:(lia)).
  split; [|split].
  - rewrite map_map. erewrite map_ext by (intros i; apply Hreq).
    rewrite <- (map_map (chunk25 ds) (map BatchWrite.PutRequest)), <- concat_map, chunk25_concat.
    f_equal. apply take_ge. lia.
  - apply Forall_forall. intros b Hb. apply list_elem_of_In, in_map_iff in Hb as (i & <- & _).
    rewrite Hreq, length_map. unfold chunk25. rewrite length_take. lia.
  - intros Hmod. rewrite Nat.add_1_r, seq_S, map_app. cbn [map]. rewrite last_app. cbn [last].
    f_equal. f_equal. f_equal. unfold chunk25. rewrite drop_ge; [reflexivity|]. lia.
Qed.

Lemma batch_write_chunks_witness :
  let M := fun (n : nat) => if Nat.eqb n 0 then None else Some (n * 10)%nat in
  let items := seq 1 30 in
  Forall2 (fun x y => M x = Some y) items (map (fun n => n * 10)%nat items) /\
  exists bs,
    (BatchWrite.Build M (BatchWrite.PutItems (BatchWrite.BatchWriteItem
       (Table.mk "t" (StringField "id") EmptyField [] [])) items)).2 = Some bs /\
    bs = map (fun i => BatchWrite.mkInput {["t" := map BatchWrite.PutRequest
               (take 25 (drop (25 * i) (map (fun n => n * 10)%nat items)))]})
             (seq 0 (length items / 25 + 1)) /\
    concat (map (BatchWrite.requests "t") bs) = map BatchWrite.PutRequest (map (fun n => n * 10)%nat items) /\
    (Forall (fun b => length (BatchWrite.requests "t" b) <= 25)%nat bs) /\
    (length items mod 25 = 0 -> last bs = Some (BatchWrite.mkInput {["t" := []]})).
Proof.
  cbv zeta.
  assert (H : Forall2 (fun x y => (if Nat.eqb x 0 then None else Some (x * 10)%nat) = Some y)
                (seq 1 30) (map (fun n => n * 10)%nat (seq 1 30))).
  { vm_compute. repeat constructor. }
  split; [exact H|].
  exact (batch_write_chunks _ (Table.mk "t" (StringField "id") EmptyField [] []) _ _ H).
Defined.

Lemma Forall2_map_l {A B C : Type} (P : B -> C -> Prop) (f : A -> B) (l : list A) (k : list C) :
  Forall2 (fun x y => P (f x) y) l k -> Forall2 P (map f l) k.
Proof. induction 1; constructor; auto. Qed.

(** [Build] consumes the items of every delayed function and keeps
    [d.batches]: after a successful [Build] of [PutItems(items...)], the
    closure's [items] is empty, and a second [Build] runs it again with
    [batchCount = 0/25 + 1 = 1], so it returns the batches of the first
    call followed by one more batch with no requests. *)
Theorem batch_write_build_twice {Item Attr : Type} (MarshalMap : Item -> option Attr)
    (table : Table.DynamoTable) (items : list Item) (ds : list Attr) :
  Forall2 (fun x y => MarshalMap x = Some y) items ds ->
  let d1 := (BatchWrite.Build MarshalMap (BatchWrite.PutItems (BatchWrite.BatchWriteItem table) items)).1 in
  BatchWrite.delayedFunctions d1 = [(true, [])] /\
  exists bs,
    (BatchWrite.Build MarshalMap (BatchWrite.PutItems (BatchWrite.BatchWriteItem table) items)).2 = Some bs /\
    (BatchWrite.Build MarshalMap d1).2 = Some (bs ++ [BatchWrite.mkInput {[Table.Name table := []]}])%list.
Proof.
  intros Hm d1. subst d1.
  unfold BatchWrite.Build, BatchWrite.PutItems, BatchWrite.writeItems, BatchWrite.BatchWriteItem.
  cbn [BatchWrite.table BatchWrite.batches BatchWrite.delayedFunctions app BatchWrite.run_delayed].
  rewrite (run_writeItems_ok _ _ _ _ ds Hm). cbn [app fst snd BatchWrite.delayedFunctions].
  split; [reflexivity|]. eexists. split; reflexivity.
Qed.

Lemma batch_write_build_twice_witness :
  let M := fun (n : nat) => if Nat.eqb n 0 then None else Some (n * 10)%nat in
  Forall2 (fun x y => M x = Some y) (seq 1 3) [10; 20; 30]%nat /\
  let d1 := (BatchWrite.Build M (BatchWrite.PutItems (BatchWrite.BatchWriteItem
               (Table.mk "t" (StringField "id") EmptyField [] [])) (seq 1 3))).1 in
  BatchWrite.delayedFunctions d1 = [(true, [])] /\
  exists bs,
    (BatchWrite.Build M (BatchWrite.PutItems (BatchWrite.BatchWriteItem
       (Table.mk "t" (StringField "id") EmptyField [] [])) (seq 1 3))).2 = Some bs /\
    (BatchWrite.Build M d1).2 = Some (bs ++ [BatchWrite.mkInput {["t" := []]}])%list.
Proof.
  cbv zeta.
  assert (H : Forall2 (fun x y => (if Nat.eqb x 0 then None else Some (x * 10)%nat) = Some y)
                (seq 1 3) [10; 20; 30]%nat).
  { vm_compute. repeat constructor. }
  split; [exact H|].
  exact (batch_write_build_twice _ (Table.mk "t" (StringField "id") EmptyField [] []) _ _ H).
Defined.

(** When [MarshalMap] fails on an item, [Build] returns the error, drops
    the batches built so far by that call (they live in a local
    [batches] slice), and leaves the closure with only the items after
    the failing one: the new state is that of [PutItems] of those items,
    so a later [Build] never sends the items before the failing one nor
    the failing one itself. *)
Theorem batch_write_marshal_error {Item Attr : Type} (MarshalMap : Item -> option Attr)
    (table : Table.DynamoTable) (pre post : list Item) (bad : Item) (dpre : list Attr) :
  Forall2 (fun x y => MarshalMap x = Some y) pre dpre -> MarshalMap bad = None ->
  BatchWrite.Build MarshalMap (BatchWrite.PutItems (BatchWrite.BatchWriteItem table) (pre ++ bad :: post))
    = (BatchWrite.PutItems (BatchWrite.BatchWriteItem table) post, None).
Proof.
  intros Hm Hbad.
  unfold BatchWrite.Build, BatchWrite.PutItems, BatchWrite.writeItems, BatchWrite.BatchWriteItem.
  cbn [BatchWrite.table BatchWrite.batches BatchWrite.delayedFunctions app BatchWrite.run_delayed].
  unfold BatchWrite.run_writeItems.
  rewrite (batch_loop_fail _ _ _ _ pre post dpre bad); [reflexivity|exact Hm|exact Hbad|].
  rewrite length_app. cbn [length].
  pose proof (Nat.div_mod (length pre + S (length post)) 25 ltac:(lia)).
  pose proof (Nat.mod_upper_bound (length pre + S (length post)) 25 ltac:(lia)). lia.
Qed.

Lemma batch_write_marshal_error_witness :
  let M := fun (n : nat) => if Nat.eqb n 0 then None else Some (n * 10)%nat in
  Forall2 (fun x y => M x = Some y) [1; 2]%nat [10; 20]%nat /\ M 0%nat = None /\
  BatchWrite.Build M (BatchWrite.PutItems (BatchWrite.BatchWriteItem
      (Table.mk "t" (StringField "id") EmptyField [] [])) ([1; 2]%nat ++ 0%nat :: [3]%nat)%list)
    = (BatchWrite.PutItems (BatchWrite.BatchWriteItem
         (Table.mk "t" (StringField "id") EmptyField [] [])) [3]%nat, None).
Proof.
  cbv zeta.
  assert (H : Forall2 (fun x y => (if Nat.eqb x 0 then None else Some (x * 10)%nat) = Some y)
                [1; 2]%nat [10; 20]%nat).
  { vm_compute. repeat constructor. }
  assert (Hb : (if Nat.eqb 0 0 then None else Some (0 * 10)%nat) = @None nat) by reflexivity.
  split; [exact H|]. split; [exact Hb|].
  exact (batch_write_marshal_error _ (Table.mk "t" (StringField "id") EmptyField [] [])
           [1; 2]%nat [3]%nat 0%nat _ H Hb).
Defined.

(** [PutItems(items...)] then [DeleteItems(keys...)]: [Build] runs the
    two delayed functions in order, so the put batches of the items come
    first and the delete batches of the keys follow, each group cut in
    batches of 25 as by one call; a delete request holds the marshalled
    key map [appendKeyInterface] builds for its key. *)
Theorem batch_write_put_then_delete {Item Attr : Type} (MarshalMap : Item -> option Attr)
    (KeyItem : gmap string Value -> Item) (table : Table.DynamoTable)
    (items : list Item) (ds : list Attr) (keys : list KV.KeyValue) (dks : list Attr) :
  Forall2 (fun x y => MarshalMap x = Some y) items ds ->
  Forall2 (fun k y => MarshalMap (KeyItem (appendKeyInterface ∅ table k)) = Some y) keys dks ->
  let t := Table.Name table in
  (BatchWrite.Build MarshalMap
     (BatchWrite.DeleteItems KeyItem (BatchWrite.PutItems (BatchWrite.BatchWriteItem table) items) keys)).2
  = Some (map (fun i => BatchWrite.mkInput {[t := map BatchWrite.PutRequest (chunk25 ds i)]})
              (seq 0 (length items / 25 + 1)) ++
          map (fun i => BatchWrite.mkInput {[t := map BatchWrite.DeleteRequest (chunk25 dks i)]})
              (seq 0 (length keys / 25 + 1)))%list.
Proof.
  intros Hm Hk t.
  unfold BatchWrite.Build, BatchWrite.DeleteItems, BatchWrite.PutItems, BatchWrite.writeItems,
    BatchWrite.BatchWriteItem.
  cbn [BatchWrite.table BatchWrite.batches BatchWrite.delayedFunctions app BatchWrite.run_delayed].
  rewrite (run_writeItems_ok _ _ _ _ ds Hm). cbn [app BatchWrite.run_delayed].
  rewrite (run_writeItems_ok _ _ _ _ dks (Forall2_map_l _ _ _ _ Hk)).
  cbn [app BatchWrite.run_delayed]. rewrite length_map. reflexivity.
Qed.

Lemma batch_write_put_then_delete_witness :
  let M := fun (n : nat) => if Nat.eqb n 0 then None else Some (n * 10)%nat in
  let K := fun (m : gmap string Value) => 7%nat in
  let table := Table.mk "t" (StringField "id") EmptyField [] [] in
  Forall2 (fun x y => M x = Some y) [1; 2]%nat [10; 20]%nat /\
  Forall2 (fun k y => M (K (appendKeyInterface ∅ table k)) = Some y)
    [KV.mk (VStr "a") (VStr "")] [70]%nat /\
  (BatchWrite.Build M
     (BatchWrite.DeleteItems K (BatchWrite.PutItems (BatchWrite.BatchWriteItem table) [1; 2]%nat)
        [KV.mk (VStr "a") (VStr "")])).2
  = Some (map (fun i => BatchWrite.mkInput {["t" := map BatchWrite.PutRequest (chunk25 [10; 20]%nat i)]})
              (seq 0 (length [1; 2]%nat / 25 + 1)) ++
          map (fun i => BatchWrite.mkInput {["t" := map BatchWrite.DeleteRequest (chunk25 [70]%nat i)]})
              (seq 0 (length [KV.mk (VStr "a") (VStr "")] / 25 + 1)))%list.
Proof.
  cbv zeta.
  assert (H : Forall2 (fun x y => (if Nat.eqb x 0 then None else Some (x * 10)%nat) = Some y)
                [1; 2]%nat [10; 20]%nat).
  { vm_compute. repeat constructor. }
  assert (Hk : Forall2 (fun k y => (if Nat.eqb ((fun (m : gmap string Value) => 7%nat)
                  (appendKeyInterface ∅ (Table.mk "t" (StringField "id") EmptyField [] []) k)) 0
                  then None else Some ((fun (m : gmap string Value) => 7%nat)
                  (appendKeyInterface ∅ (Table.mk "t" (StringField "id") EmptyField [] []) k) * 10)%nat) = Some y)
                [KV.mk (VStr "a") (VStr "")] [70]%nat).
  { repeat constructor. }
  split; [exact H|]. split; [exact Hk|].
  exact (batch_write_put_then_delete _ (fun (m : gmap string Value) => 7%nat)
           (Table.mk "t" (StringField "id") EmptyField [] []) _ _ _ _ H Hk).
Defined.

(** *** [CreateTable] *)

Lemma WithGlobalSecondaryIndex_step (d : CT.CreateTableInput) (g : GSI.t) :
  exists defs o,
    WithGlobalSecondaryIndex d g
      = CT.mk (CT.TableName d) (CT.KeySchema d) (CT.ReadCapacityUnits d) (CT.WriteCapacityUnits d)
          (CT.AttributeDefinitions d ++ defs ++
             [field_definition (GSI.PartitionKey g); field_definition (GSI.RangeKey g)])%list
          (CT.GlobalSecondaryIndexes d ++ [o])%list (CT.LocalSecondaryIndexes d) /\
    length defs = include_count (GSI.ProjectionType g) (GSI.NonKeyAttributes g) /\
    gsi_built g o.
Proof.
  unfold WithGlobalSecondaryIndex, projection_parts, include_count, gsi_built.
  destruct (String.eqb (GSI.ProjectionType g) "") eqn:E1.
  - apply String.eqb_eq in E1. rewrite E1. cbn.
    exists []; eexists. split; [reflexivity|]. cbn. repeat split.
  - destruct (String.eqb (GSI.ProjectionType g) "INCLUDE") eqn:E2.
    + exists (map field_definition (GSI.NonKeyAttributes g)); eexists. split; [reflexivity|].
      cbn. rewrite length_map. repeat split.
    + exists []; eexists. split; [reflexivity|]. cbn. repeat split.
Qed.

Lemma WithLocalSecondaryIndex_step (d : CT.CreateTableInput) (l : LSI.t) :
  exists defs o,
    WithLocalSecondaryIndex d l
      = CT.mk (CT.TableName d) (CT.KeySchema d) (CT.ReadCapacityUnits d) (CT.WriteCapacityUnits d)
          (CT.AttributeDefinitions d ++ defs ++
             [field_definition (LSI.PartitionKey l); field_definition (LSI.SortKey l)])%list
          (CT.GlobalSecondaryIndexes d) (CT.LocalSecondaryIndexes d ++ [o])%list /\
    length defs = include_count (LSI.ProjectionType l) (LSI.NonKeyAttributes l) /\
    lsi_built l o.
Proof.
  unfold WithLocalSecondaryIndex, projection_parts, include_count, lsi_built.
  destruct (String.eqb (LSI.ProjectionType l) "") eqn:E1.
  - apply String.eqb_eq in E1. rewrite E1. cbn.
    exists []; eexists. split; [reflexivity|]. cbn. repeat split.
  - destruct (String.eqb (LSI.ProjectionType l) "INCLUDE") eqn:E2.
    + exists (map field_definition (LSI.NonKeyAttributes l)); eexists. split; [reflexivity|].
      cbn. rewrite length_map. repeat split.
    + exists []; eexists. split; [reflexivity|]. cbn. repeat split.
Qed.

Lemma foldl_WithGlobalSecondaryIndex (c : CT.CreateTableInput) (gsis : list GSI.t) :
  let c' := foldl WithGlobalSecondaryIndex c gsis in
  CT.TableName c' = CT.TableName c /\ CT.KeySchema c' = CT.KeySchema c /\
  CT.ReadCapacityUnits c' = CT.ReadCapacityUnits c /\
  CT.WriteCapacityUnits c' = CT.WriteCapacityUnits c /\
  CT.LocalSecondaryIndexes c' = CT.LocalSecondaryIndexes c /\
  (exists os, CT.GlobalSecondaryIndexes c' = (CT.GlobalSecondaryIndexes c ++ os)%list /\
     Forall2 gsi_built gsis os) /\
  (exists defs, CT.AttributeDefinitions c' = (CT.AttributeDefinitions c ++ defs)%list /\
     length defs = sum_list_with (fun g =>
       2 + include_count (GSI.ProjectionType g) (GSI.NonKeyAttributes g))%nat gsis /\
     Forall (fun g => field_definition (GSI.PartitionKey g) ∈ defs /\
                      field_definition (GSI.RangeKey g) ∈ defs) gsis).
Proof.
  revert c. induction gsis as [|g gs IH]; intros c c'; subst c'.
  - cbn. repeat split; [exists []; rewrite app_nil_r; split; constructor
                      | exists []; rewrite app_nil_r; repeat split; constructor].
  - cbn [foldl]. destruct (WithGlobalSecondaryIndex_step c g) as (defs & o & Heq & Hlen & Hb).
    rewrite Heq. destruct (IH (CT.mk (CT.TableName c) (CT.KeySchema c) (CT.ReadCapacityUnits c)
        (CT.WriteCapacityUnits c)
        (CT.AttributeDefinitions c ++ defs ++
           [field_definition (GSI.PartitionKey g); field_definition (GSI.RangeKey g)])%list
        (CT.GlobalSecondaryIndexes c ++ [o])%list (CT.LocalSecondaryIndexes c)))
      as (H1 & H2 & H3 & H4 & H5 & (os & Hos & Hos') & (defs' & Hd & Hdl & Hdin)).
    cbn [CT.TableName CT.KeySchema CT.ReadCapacityUnits CT.WriteCapacityUnits
         CT.LocalSecondaryIndexes CT.GlobalSecondaryIndexes CT.AttributeDefinitions] in *.
    repeat split; try assumption.
    + exists (o :: os). rewrite Hos, <- app_assoc. split; [reflexivity|]. by constructor.
    + exists (defs ++ [field_definition (GSI.PartitionKey g); field_definition (GSI.RangeKey g)] ++ defs')%list.
      rewrite Hd, <- !app_assoc. split; [reflexivity|]. split.
      * rewrite !length_app, Hdl, Hlen. cbn. lia.
      * constructor.
        -- split; apply elem_of_app; right; apply elem_of_app; left; set_solver.
        -- eapply Forall_impl; [exact Hdin|]. intros x [Hx1 Hx2].
           split; apply elem_of_app; right; apply elem_of_app; right; assumption.
Qed.

Lemma foldl_WithLocalSecondaryIndex (c : CT.CreateTableInput) (lsis : list LSI.t) :
  let c' := foldl WithLocalSecondaryIndex c lsis in
  CT.TableName c' = CT.TableName c /\ CT.KeySchema c' = CT.KeySchema c /\
  CT.ReadCapacityUnits c' = CT.ReadCapacityUnits c /\
  CT.WriteCapacityUnits c' = CT.WriteCapacityUnits c /\
  CT.GlobalSecondaryIndexes c' = CT.GlobalSecondaryIndexes c /\
  (exists os, CT.LocalSecondaryIndexes c' = (CT.LocalSecondaryIndexes c ++ os)%list /\
     Forall2 lsi_built lsis os) /\
  (exists defs, CT.AttributeDefinitions c' = (CT.AttributeDefinitions c ++ defs)%list /\
     length defs = sum_list_with (fun l =>
       2 + include_count (LSI.ProjectionType l) (LSI.NonKeyAttributes l))%nat lsis /\
     Forall (fun l => field_definition (LSI.PartitionKey l) ∈ defs /\
                      field_definition (LSI.SortKey l) ∈ defs) lsis).
Proof.
  revert c. induction lsis as [|l ls IH]; intros c c'; subst c'.
  - cbn. repeat split; [exists []; rewrite app_nil_r; split; constructor
                      | exists []; rewrite app_nil_r; repeat split; constructor].
  - cbn [foldl]. destruct (WithLocalSecondaryIndex_step c l) as (defs & o & Heq & Hlen & Hb).
    rewrite Heq. destruct (IH (CT.mk (CT.TableName c) (CT.KeySchema c) (CT.ReadCapacityUnits c)
        (CT.WriteCapacityUnits c)
        (CT.AttributeDefinitions c ++ defs ++
           [field_definition (LSI.PartitionKey l); field_definition (LSI.SortKey l)])%list
        (CT.GlobalSecondaryIndexes c) (CT.LocalSecondaryIndexes c ++ [o])%list))
      as (H1 & H2 & H3 & H4 & H5 & (os & Hos & Hos') & (defs' & Hd & Hdl & Hdin)).
    cbn [CT.TableName CT.KeySchema CT.ReadCapacityUnits CT.WriteCapacityUnits
         CT.LocalSecondaryIndexes CT.GlobalSecondaryIndexes CT.AttributeDefinitions] in *.
    repeat split; try assumption.
    + exists (o :: os). rewrite Hos, <- app_assoc. split; [reflexivity|]. by constructor.
    + exists (defs ++ [field_definition (LSI.PartitionKey l); field_definition (LSI.SortKey l)] ++ defs')%list.
      rewrite Hd, <- !app_assoc. split; [reflexivity|]. split.
      * rewrite !length_app, Hdl, Hlen. cbn. lia.
      * constructor.
        -- split; apply elem_of_app; right; apply elem_of_app; left; set_solver.
        -- eapply Forall_impl; [exact Hdin|]. intros x [Hx1 Hx2].
           split; apply elem_of_app; right; apply elem_of_app; right; assumption.
Qed.

Lemma CreateTable_parts (table : Table.DynamoTable) :
  let c := CreateTable table in
  let pk := Table.PartitionKey table in
  let rk := Table.RangeKey table in
  CT.TableName c = Table.Name table /\
  CT.KeySchema c = KSE.mk (Field.name pk) "HASH"
                     :: (if Field.empty rk then [] else [KSE.mk (Field.name rk) "RANGE"]) /\
  CT.ReadCapacityUnits c = 100%Z /\ CT.WriteCapacityUnits c = 100%Z /\
  Forall2 gsi_built (Table.GlobalSecondaryIndexes table) (CT.GlobalSecondaryIndexes c) /\
  Forall2 lsi_built (Table.LocalSecondaryIndexes table) (CT.LocalSecondaryIndexes c) /\
  exists gdefs ldefs,
    CT.AttributeDefinitions c = (field_definition pk
      :: (if Field.empty rk then [] else [field_definition rk]) ++ gdefs ++ ldefs)%list /\
    length gdefs = sum_list_with (fun g =>
       2 + include_count (GSI.ProjectionType g) (GSI.NonKeyAttributes g))%nat
       (Table.GlobalSecondaryIndexes table) /\
    length ldefs = sum_list_with (fun l =>
       2 + include_count (LSI.ProjectionType l) (LSI.NonKeyAttributes l))%nat
       (Table.LocalSecondaryIndexes table) /\
    Forall (fun g => field_definition (GSI.PartitionKey g) ∈ gdefs) (Table.GlobalSecondaryIndexes table) /\
    Forall (fun l => field_definition (LSI.PartitionKey l) ∈ ldefs) (Table.LocalSecondaryIndexes table).
Proof.
  intros c pk rk. subst c. unfold CreateTable. fold pk rk.
  set (c0 := CT.mk (Table.Name table)
               (KSE.mk (Field.name pk) "HASH"
                  :: (if Field.empty rk then [] else [KSE.mk (Field.name rk) "RANGE"]))
               100 100
               (field_definition pk :: (if Field.empty rk then [] else [field_definition rk]))
               [] []).
  assert (Hc0 : (let '(k, a) :=
      if negb (Field.empty rk)
      then (([KSE.mk (Field.name pk) "HASH"] ++ [KSE.mk (Field.name rk) "RANGE"])%list,
            ([field_definition pk] ++ [field_definition rk])%list)
      else ([KSE.mk (Field.name pk) "HASH"], [field_definition pk]) in
      foldl WithLocalSecondaryIndex
        (foldl WithGlobalSecondaryIndex (CT.mk (Table.Name table) k 100 100 a [] [])
           (Table.GlobalSecondaryIndexes table)) (Table.LocalSecondaryIndexes table))
    = foldl WithLocalSecondaryIndex
        (foldl WithGlobalSecondaryIndex c0 (Table.GlobalSecondaryIndexes table))
        (Table.LocalSecondaryIndexes table)).
  { subst c0. by destruct (Field.empty rk). }
  rewrite Hc0.
  destruct (foldl_WithGlobalSecondaryIndex c0 (Table.GlobalSecondaryIndexes table))
    as (G1 & G2 & G3 & G4 & G5 & (gos & Ggs & Ggb) & (gdefs & Gd & Gdl & Gdin)).
  destruct (foldl_WithLocalSecondaryIndex
              (foldl WithGlobalSecondaryIndex c0 (Table.GlobalSecondaryIndexes table))
              (Table.LocalSecondaryIndexes table))
    as (L1 & L2 & L3 & L4 & L5 & (los & Lls & Llb) & (ldefs & Ld & Ldl & Ldin)).
  rewrite L1, L2, L3, L4, L5, Lls, Ld, G1, G2, G3, G4, G5, Ggs, Gd. subst c0.
  cbn [CT.TableName CT.KeySchema CT.ReadCapacityUnits CT.WriteCapacityUnits
       CT.GlobalSecondaryIndexes CT.LocalSecondaryIndexes CT.AttributeDefinitions app].
  repeat split; try assumption.
  exists gdefs, ldefs. repeat split; try assumption.
  - by rewrite <- !app_assoc.
  - eapply Forall_impl; [exact Gdin|]. intros g [? _]. assumption.
  - eapply Forall_impl; [exact Ldin|]. intros l [? _]. assumption.
Qed.

(** The table part of [CreateTable]: the table name, a [HASH] key schema
    element for the partition key followed by a [RANGE] one for the range
    key unless it is empty, throughput 100/100, one output index per
    secondary index, and one attribute definition per table key plus, for
    each secondary index, two for its keys and, with the [INCLUDE]
    projection, one per non-key attribute. *)
Theorem create_table_shape (table : Table.DynamoTable) :
  let c := CreateTable table in
  let pk := Table.PartitionKey table in
  let rk := Table.RangeKey table in
  CT.TableName c = Table.Name table /\
  CT.KeySchema c = KSE.mk (Field.name pk) "HASH"
                     :: (if Field.empty rk then [] else [KSE.mk (Field.name rk) "RANGE"]) /\
  CT.ReadCapacityUnits c = 100%Z /\ CT.WriteCapacityUnits c = 100%Z /\
  length (CT.GlobalSecondaryIndexes c) = length (Table.GlobalSecondaryIndexes table) /\
  length (CT.LocalSecondaryIndexes c) = length (Table.LocalSecondaryIndexes table) /\
  take 1 (CT.AttributeDefinitions c) = [AD.mk (Field.name pk) (Field.type_ pk)] /\
  length (CT.AttributeDefinitions c)
    = ((if Field.empty rk then 1 else 2)
       + sum_list_with (fun g => 2 + (if String.eqb (GSI.ProjectionType g) "INCLUDE"
                                      then length (GSI.NonKeyAttributes g) else 0))
           (Table.GlobalSecondaryIndexes table)
       + sum_list_with (fun l => 2 + (if String.eqb (LSI.ProjectionType l) "INCLUDE"
                                      then length (LSI.NonKeyAttributes l) else 0))
           (Table.LocalSecondaryIndexes table))%nat.
Proof.
  intros c pk rk.
  destruct (CreateTable_parts table) as (H1 & H2 & H3 & H4 & H5 & H6 & gdefs & ldefs & Hd & Hg & Hl & _ & _).
  fold c pk rk in H1, H2, H3, H4, H5, H6, Hd.
  repeat split; try assumption.
  - symmetry. exact (Forall2_length _ _ _ H5).
  - symmetry. exact (Forall2_length _ _ _ H6).
  - by rewrite Hd.
  - rewrite Hd. cbn [length]. rewrite !length_app, Hg, Hl. unfold include_count.
    destruct (Field.empty rk); cbn [length]; lia.
Qed.

(** The [i]-th global secondary index of [CreateTable] is built from the
    table's [i]-th one: its name, a key schema of a [HASH] element for the
    partition key and a [RANGE] element for the range key (also when the
    range key is empty), the projection type [ALL] when none is given, the
    non-key attributes only for [INCLUDE], and 10 read or write units in
    place of 0. *)
Theorem create_table_gsi (table : Table.DynamoTable) (i : nat) (g : GSI.t) :
  Table.GlobalSecondaryIndexes table !! i = Some g ->
  exists o,
    CT.GlobalSecondaryIndexes (CreateTable table) !! i = Some o /\
    GSIOut.IndexName o = GSI.Name g /\
    GSIOut.KeySchema o = [KSE.mk (Field.name (GSI.PartitionKey g)) "HASH";
                          KSE.mk (Field.name (GSI.RangeKey g)) "RANGE"] /\
    (GSI.ProjectionType g = "" -> Projection.ProjectionType (GSIOut.Projection o) = "ALL") /\
    (GSI.ProjectionType g <> "" ->
       Projection.ProjectionType (GSIOut.Projection o) = GSI.ProjectionType g) /\
    (GSI.ProjectionType g = "INCLUDE" ->
       Projection.NonKeyAttributes (GSIOut.Projection o) = map Field.name (GSI.NonKeyAttributes g)) /\
    (GSI.ProjectionType g <> "INCLUDE" -> Projection.NonKeyAttributes (GSIOut.Projection o) = []) /\
    (GSI.ReadUnits g = 0%Z -> GSIOut.ReadCapacityUnits o = 10%Z) /\
    (GSI.ReadUnits g <> 0%Z -> GSIOut.ReadCapacityUnits o = GSI.ReadUnits g) /\
    (GSI.WriteUnits g = 0%Z -> GSIOut.WriteCapacityUnits o = 10%Z) /\
    (GSI.WriteUnits g <> 0%Z -> GSIOut.WriteCapacityUnits o = GSI.WriteUnits g).
Proof.
  intros Hi.
  destruct (CreateTable_parts table) as (_ & _ & _ & _ & H5 & _).
  destruct (Forall2_lookup_l _ _ _ _ _ H5 Hi) as (o & Ho & Hb).
  exists o. split; [exact Ho|].
  destruct Hb as (B1 & B2 & B3 & B4 & B5 & B6).
  split; [exact B1|]. split; [exact B2|].
  rewrite B3, B4, B5, B6.
  repeat split; intros H.
  - by rewrite H.
  - by rewrite (proj2 (String.eqb_neq _ _) H).
  - by rewrite H.
  - by rewrite (proj2 (String.eqb_neq _ _) H).
  - by rewrite H.
  - by rewrite (proj2 (Z.eqb_neq _ _) H).
  - by rewrite H.
  - by rewrite (proj2 (Z.eqb_neq _ _) H).
Qed.

Lemma create_table_gsi_witness :
  let g := GSI.mk "byName" (StringField "name") EmptyField "" [] 0 5 in
  let table := Table.mk "t" (StringField "id") EmptyField [g] [] in
  Table.GlobalSecondaryIndexes table !! 0%nat = Some g /\
  exists o,
    CT.GlobalSecondaryIndexes (CreateTable table) !! 0%nat = Some o /\
    GSIOut.IndexName o = GSI.Name g /\
    GSIOut.KeySchema o = [KSE.mk (Field.name (GSI.PartitionKey g)) "HASH";
                          KSE.mk (Field.name (GSI.RangeKey g)) "RANGE"] /\
    (GSI.ProjectionType g = "" -> Projection.ProjectionType (GSIOut.Projection o) = "ALL") /\
    (GSI.ProjectionType g <> "" ->
       Projection.ProjectionType (GSIOut.Projection o) = GSI.ProjectionType g) /\
    (GSI.ProjectionType g = "INCLUDE" ->
       Projection.NonKeyAttributes (GSIOut.Projection o) = map Field.name (GSI.NonKeyAttributes g)) /\
    (GSI.ProjectionType g <> "INCLUDE" -> Projection.NonKeyAttributes (GSIOut.Projection o) = []) /\
    (GSI.ReadUnits g = 0%Z -> GSIOut.ReadCapacityUnits o = 10%Z) /\
    (GSI.ReadUnits g <> 0%Z -> GSIOut.ReadCapacityUnits o = GSI.ReadUnits g) /\
    (GSI.WriteUnits g = 0%Z -> GSIOut.WriteCapacityUnits o = 10%Z) /\
    (GSI.WriteUnits g <> 0%Z -> GSIOut.WriteCapacityUnits o = GSI.WriteUnits g).
Proof.
  cbv zeta. split; [reflexivity|].
  apply create_table_gsi. reflexivity.
Defined.

(** The [i]-th local secondary index of [CreateTable] is built from the
    table's [i]-th one: its name, a [HASH] element for its partition key
    and a [RANGE] element for its sort key, the projection type [ALL]
    when none is given, and the non-key attributes only for [INCLUDE]. *)
Theorem create_table_lsi (table : Table.DynamoTable) (i : nat) (l : LSI.t) :
  Table.LocalSecondaryIndexes table !! i = Some l ->
  exists o,
    CT.LocalSecondaryIndexes (CreateTable table) !! i = Some o /\
    LSIOut.IndexName o = LSI.Name l /\
    LSIOut.KeySchema o = [KSE.mk (Field.name (LSI.PartitionKey l)) "HASH";
                          KSE.mk (Field.name (LSI.SortKey l)) "RANGE"] /\
    (LSI.ProjectionType l = "" -> Projection.ProjectionType (LSIOut.Projection o) = "ALL") /\
    (LSI.ProjectionType l <> "" ->
       Projection.ProjectionType (LSIOut.Projection o) = LSI.ProjectionType l) /\
    (LSI.ProjectionType l = "INCLUDE" ->
       Projection.NonKeyAttributes (LSIOut.Projection o) = map Field.name (LSI.NonKeyAttributes l)) /\
    (LSI.ProjectionType l <> "INCLUDE" -> Projection.NonKeyAttributes (LSIOut.Projection o) = []).
Proof.
  intros Hi.
  destruct (CreateTable_parts table) as (_ & _ & _ & _ & _ & H6 & _).
  destruct (Forall2_lookup_l _ _ _ _ _ H6 Hi) as (o & Ho & Hb).
  exists o. split; [exact Ho|].
  destruct Hb as (B1 & B2 & B3 & B4).
  split; [exact B1|]. split; [exact B2|].
  rewrite B3, B4.
  repeat split; intros H.
  - by rewrite H.
  - by rewrite (proj2 (String.eqb_neq _ _) H).
  - by rewrite H.
  - by rewrite (proj2 (String.eqb_neq _ _) H).
Qed.

Lemma create_table_lsi_witness :
  let l := LSI.mk "byDate" (StringField "id") (NumericField "date") "INCLUDE" [StringField "title"] in
  let table := Table.mk "t" (StringField "id") (StringField "sk") [] [l] in
  Table.LocalSecondaryIndexes table !! 0%nat = Some l /\
  exists o,
    CT.LocalSecondaryIndexes (CreateTable table) !! 0%nat = Some o /\
    LSIOut.IndexName o = LSI.Name l /\
    LSIOut.KeySchema o = [KSE.mk (Field.name (LSI.PartitionKey l)) "HASH";
                          KSE.mk (Field.name (LSI.SortKey l)) "RANGE"] /\
    (LSI.ProjectionType l = "" -> Projection.ProjectionType (LSIOut.Projection o) = "ALL") /\
    (LSI.ProjectionType l <> "" ->
       Projection.ProjectionType (LSIOut.Projection o) = LSI.ProjectionType l) /\
    (LSI.ProjectionType l = "INCLUDE" ->
       Projection.NonKeyAttributes (LSIOut.Projection o) = map Field.name (LSI.NonKeyAttributes l)) /\
    (LSI.ProjectionType l <> "INCLUDE" -> Projection.NonKeyAttributes (LSIOut.Projection o) = []).
Proof.
  cbv zeta. split; [reflexivity|].
  apply create_table_lsi. reflexivity.
Defined.

(** [CreateTable] appends the key definitions of every secondary index
    without checking the ones already there: when an index's partition
    key has the name of the table's partition key (which a local
    secondary index must have), the attribute names of
    [AttributeDefinitions] are not all distinct. *)
Theorem create_table_duplicate_definitions (table : Table.DynamoTable) :
  ((exists g, g ∈ Table.GlobalSecondaryIndexes table /\
              Field.name (GSI.PartitionKey g) = Field.name (Table.PartitionKey table)) \/
   (exists l, l ∈ Table.LocalSecondaryIndexes table /\
              Field.name (LSI.PartitionKey l) = Field.name (Table.PartitionKey table))) ->
  ~ NoDup (map AD.AttributeName (CT.AttributeDefinitions (CreateTable table))).
Proof.
  intros Hex.
  destruct (CreateTable_parts table) as (_ & _ & _ & _ & _ & _ & gdefs & ldefs & Hd & _ & _ & Hg & Hl).
  rewrite Hd. cbn [map]. intros Hnd. apply NoDup_cons in Hnd as [Hnin _].
  apply Hnin, list_elem_of_In.
  change (AD.AttributeName (field_definition (Table.PartitionKey table)))
    with (Field.name (Table.PartitionKey table)). rewrite map_app, map_app. apply in_or_app. right. apply in_or_app.
  destruct Hex as [(g & Hin & Hn)|(l & Hin & Hn)].
  - left. rewrite Forall_forall in Hg. specialize (Hg g Hin).
    apply list_elem_of_In in Hg. rewrite <- Hn.
    exact (in_map AD.AttributeName _ _ Hg).
  - right. rewrite Forall_forall in Hl. specialize (Hl l Hin).
    apply list_elem_of_In in Hl. rewrite <- Hn.
    exact (in_map AD.AttributeName _ _ Hl).
Qed.

Lemma create_table_duplicate_definitions_witness :
  let l := LSI.mk "byDate" (StringField "id") (NumericField "date") "" [] in
  let table := Table.mk "t" (StringField "id") (StringField "sk") [] [l] in
  ((exists g, g ∈ Table.GlobalSecondaryIndexes table /\
              Field.name (GSI.PartitionKey g) = Field.name (Table.PartitionKey table)) \/
   (exists l, l ∈ Table.LocalSecondaryIndexes table /\
              Field.name (LSI.PartitionKey l) = Field.name (Table.PartitionKey table))) /\
  ~ NoDup (map AD.AttributeName (CT.AttributeDefinitions (CreateTable table))).
Proof.
  cbv zeta.
  assert (H : (exists g, g ∈ Table.GlobalSecondaryIndexes
                 (Table.mk "t" (StringField "id") (StringField "sk") []
                    [LSI.mk "byDate" (StringField "id") (NumericField "date") "" []]) /\
              Field.name (GSI.PartitionKey g) = Field.name (StringField "id")) \/
              (exists l, l ∈ Table.LocalSecondaryIndexes
                 (Table.mk "t" (StringField "id") (StringField "sk") []
                    [LSI.mk "byDate" (StringField "id") (NumericField "date") "" []]) /\
              Field.name (LSI.PartitionKey l) = Field.name (StringField "id"))).
  { right. eexists. split; [left|reflexivity]. }
  split; [exact H|]. exact (create_table_duplicate_definitions _ H).
Defined.

(** *** Values of [SetUpdateExpression] *)

Lemma clause_expr_f (F : GoFmt) (u : UpdateClause) (c : N) :
  (UpdateV3.f (clause_expr F u) c).2 = uint_incr c /\
  (UpdateV3.f (clause_expr F u) c).1.2
    = match clause_entry u c with Some (k, v) => {[k := v]} | None => ∅ end.
Proof. destruct u; split; reflexivity. Qed.

Lemma clause_entry_key (u : UpdateClause) (c : N) (k : string) (v : Value) :
  clause_entry u c = Some (k, v) -> exists a, k = generatePlaceholder a c.
Proof. destruct u; cbn; intros H; inversion H; eauto. Qed.

Lemma counter_S (c : N) (j : nat) :
  ((uint_incr c + N.of_nat j) mod uint_modulus = (c + N.of_nat (S j)) mod uint_modulus)%N.
Proof. rewrite uint_incr_add. f_equal. lia. Qed.

Lemma loop_values_keep (F : GoFmt) (cls : list UpdateClause) (m : gmap string Value) (ms : gmap string string)
    (c : N) (k : string) :
  (c < uint_modulus)%N ->
  (forall j u k' v', cls !! j = Some u ->
     clause_entry u ((c + N.of_nat j) mod uint_modulus) = Some (k', v') -> k' <> k) ->
  (UpdateV3.SetUpdateExpression_loop (map (clause_expr F) cls) m ms c).1.1 !! k = m !! k.
Proof.
  revert m ms c. induction cls as [|u cls IH]; intros m ms c Hc Hk; [reflexivity|].
  cbn [map UpdateV3.SetUpdateExpression_loop].
  destruct (clause_expr_f F u c) as [Hnc Hmr].
  destruct (UpdateV3.f (clause_expr F u) c) as [[s mr] nc]. cbn in Hnc, Hmr. subst nc mr.
  rewrite IH.
  - pose proof (Hk 0%nat u) as H0. cbn [lookup list_lookup] in H0.
    rewrite N.add_0_r, N.mod_small in H0 by exact Hc.
    destruct (clause_entry u c) as [[k' v']|].
    + rewrite lookup_union_r; [reflexivity|]. apply lookup_singleton_ne.
      exact (H0 k' v' eq_refl eq_refl).
    + by rewrite map_empty_union.
  - apply uint_incr_lt.
  - intros j u' k' v' Hj. rewrite counter_S. exact (Hk (S j) u' k' v' Hj).
Qed.

Lemma loop_values_entry (F : GoFmt) (cls : list UpdateClause) (m : gmap string Value) (ms : gmap string string)
    (c : N) (i : nat) (u : UpdateClause) (k : string) (v : Value) :
  (c < uint_modulus)%N -> cls !! i = Some u ->
  clause_entry u ((c + N.of_nat i) mod uint_modulus) = Some (k, v) ->
  (forall j u' k' v', cls !! j = Some u' -> j <> i ->
     clause_entry u' ((c + N.of_nat j) mod uint_modulus) = Some (k', v') -> k' <> k) ->
  (UpdateV3.SetUpdateExpression_loop (map (clause_expr F) cls) m ms c).1.1 !! k = Some v.
Proof.
  revert m ms c i. induction cls as [|u0 cls IH]; intros m ms c i Hc Hi He Hk; [done|].
  cbn [map UpdateV3.SetUpdateExpression_loop].
  destruct (clause_expr_f F u0 c) as [Hnc Hmr].
  destruct (UpdateV3.f (clause_expr F u0) c) as [[s mr] nc]. cbn in Hnc, Hmr. subst nc mr.
  destruct i as [|i].
  - cbn in Hi. injection Hi as <-.
    rewrite N.add_0_r, N.mod_small in He by exact Hc.
    rewrite loop_values_keep.
    + rewrite He, lookup_union, lookup_singleton_eq. by destruct (m !! k).
    + apply uint_incr_lt.
    + intros j u' k' v' Hj. rewrite counter_S. exact (Hk (S j) u' k' v' Hj ltac:(lia)).
  - apply (IH _ _ _ i); [apply uint_incr_lt | exact Hi | by rewrite counter_S |].
    intros j u' k' v' Hj Hji. rewrite counter_S.
    exact (Hk (S j) u' k' v' Hj ltac:(lia)).
Qed.

Lemma SetUpdateExpression_value (F : GoFmt) (cls : list UpdateClause) (d d' : UpdateV3.UpdateItemInput)
    (i : nat) (u : UpdateClause) (k : string) (v : Value) :
  (N.of_nat (length cls) <= uint_modulus)%N ->
  UpdateV3.SetUpdateExpression (map (clause_expr F) cls) d d' ->
  cls !! i = Some u ->
  clause_entry u ((100 + N.of_nat i) mod uint_modulus) = Some (k, v) ->
  UpdateV3.ExpressionAttributeValues d' !! k = Some v.
Proof.
  intros Hlen Hset Hi He.
  unfold UpdateV3.SetUpdateExpression in Hset.
  pose proof (loop_values_entry F cls ∅ ∅ 100 i u k v) as Hl.
  destruct (UpdateV3.SetUpdateExpression_loop (map (clause_expr F) cls) ∅ ∅ 100) as [[m ms] c].
  destruct Hset as [_ Hra]. apply range_assign_union in Hra. rewrite Hra.
  cbn in Hl. rewrite lookup_union, Hl; [by destruct (UpdateV3.ExpressionAttributeValues d !! k)| | exact Hi | exact He |].
  - unfold uint_modulus. lia.
  - intros j u' k' v' Hj Hji He' ->.
    apply clause_entry_key in He as [a Ha]. apply clause_entry_key in He' as [a' Ha'].
    rewrite Ha in Ha'. apply generatePlaceholder_counter_inj in Ha'.
    apply lookup_lt_Some in Hi, Hj.
    apply counter_mod_inj in Ha'; [lia | unfold uint_modulus; lia | lia | lia].
Qed.

(** [SetUpdateExpression] gives the [i]-th clause the counter
    [uint(100) + i]: as long as the number of clauses fits in a [uint],
    the placeholders of two clauses differ (also for equal values), so
    the value of every [SetField] and [Append] clause is found in
    [ExpressionAttributeValues] under its placeholder, whatever the map
    iteration order: [SetField(a)] stores [a], [Append(a)] stores the
    one-element list [[a]]. *)
Theorem update_values_kept (F : GoFmt) (cls : list UpdateClause) (d d' : UpdateV3.UpdateItemInput) :
  (N.of_nat (length cls) <= uint_modulus)%N ->
  UpdateV3.SetUpdateExpression (map (clause_expr F) cls) d d' ->
  forall i,
    (forall field a onlyIfEmpty, cls !! i = Some (USetField field a onlyIfEmpty) ->
       UpdateV3.ExpressionAttributeValues d'
         !! generatePlaceholder a ((100 + N.of_nat i) mod uint_modulus) = Some a) /\
    (forall field a, cls !! i = Some (UAppend field a) ->
       UpdateV3.ExpressionAttributeValues d'
         !! generatePlaceholder a ((100 + N.of_nat i) mod uint_modulus) = Some (VList [a])).
Proof.
  intros Hlen Hset i. split.
  - intros field a b Hi. exact (SetUpdateExpression_value _ _ _ _ _ _ _ _ Hlen Hset Hi eq_refl).
  - intros field a Hi. exact (SetUpdateExpression_value _ _ _ _ _ _ _ _ Hlen Hset Hi eq_refl).
Qed.

Lemma update_values_kept_witness :
  let F := mkGoFmt (fun _ _ => "") (fun _ => "") in
  let cls := [USetField (mkDynamoField "x") (VStr "a") false; UAppend (mkDynamoField "l") (VStr "a")] in
  let d := UpdateV3.mkUpdateItemInput "" ∅ in
  let r := UpdateV3.SetUpdateExpression_loop (map (clause_expr F) cls) ∅ ∅ 100 in
  let d' := UpdateV3.mkUpdateItemInput (UpdateV3.render_groups (map_to_list r.1.2)) (r.1.1 ∪ ∅) in
  (N.of_nat (length cls) <= uint_modulus)%N /\
  UpdateV3.SetUpdateExpression (map (clause_expr F) cls) d d' /\
  forall i,
    (forall field a onlyIfEmpty, cls !! i = Some (USetField field a onlyIfEmpty) ->
       UpdateV3.ExpressionAttributeValues d'
         !! generatePlaceholder a ((100 + N.of_nat i) mod uint_modulus) = Some a) /\
    (forall field a, cls !! i = Some (UAppend field a) ->
       UpdateV3.ExpressionAttributeValues d'
         !! generatePlaceholder a ((100 + N.of_nat i) mod uint_modulus) = Some (VList [a])).
Proof.
  cbv zeta.
  assert (Hlen : (N.of_nat (length [USetField (mkDynamoField "x") (VStr "a") false;
                                    UAppend (mkDynamoField "l") (VStr "a")]) <= uint_modulus)%N).
  { unfold uint_modulus. cbn. lia. }
  assert (Hset : UpdateV3.SetUpdateExpression
    (map (clause_expr (mkGoFmt (fun _ _ => "") (fun _ => ""))) [USetField (mkDynamoField "x") (VStr "a") false; UAppend (mkDynamoField "l") (VStr "a")])
    (UpdateV3.mkUpdateItemInput "" ∅)
    (UpdateV3.mkUpdateItemInput
       (UpdateV3.render_groups (map_to_list (UpdateV3.SetUpdateExpression_loop
          (map (clause_expr (mkGoFmt (fun _ _ => "") (fun _ => ""))) [USetField (mkDynamoField "x") (VStr "a") false;
                            UAppend (mkDynamoField "l") (VStr "a")]) ∅ ∅ 100).1.2))
       ((UpdateV3.SetUpdateExpression_loop
          (map (clause_expr (mkGoFmt (fun _ _ => "") (fun _ => ""))) [USetField (mkDynamoField "x") (VStr "a") false;
                            UAppend (mkDynamoField "l") (VStr "a")]) ∅ ∅ 100).1.1 ∪ ∅))).
  { unfold UpdateV3.SetUpdateExpression.
    destruct (UpdateV3.SetUpdateExpression_loop _ ∅ ∅ 100) as [[m ms] c].
    split; [exists (map_to_list ms); split; reflexivity | apply range_assign_exists]. }
  split; [exact Hlen|]. split; [exact Hset|].
  exact (update_values_kept _ _ _ _ Hlen Hset).
Defined.
